(** * LinksLogic front end: voice capture, request gate and answer rendering

    A shallow embedding of the three React sources of the repository:

    - [GeneralApp]     : src/App.tsx (the part after the router),
    - [ColumbiaInline] : the ColumbiaApp.tsx whose voice hook lives in the
                         main component (ungated API hook, image avatar),
    - [ColumbiaRex]    : the ColumbiaApp.tsx with [RexAvatar] and
                         [ColumbiaVoiceInput] (gated API hook).

    JavaScript strings are sequences of UTF-16 code units; React state is a
    record threaded through the handlers; timers and pending fetches are
    explicit queues with deadlines in milliseconds. *)

From Stdlib Require Import Ascii String.
From Stdlib Require Import List NArith Bool Arith Lia.
Import ListNotations.

(* ================================================================== *)
(** ** JavaScript strings *)
(* ================================================================== *)

Module JS.

(** A UTF-16 code unit. *)
Definition char := N.

(** A JavaScript string. *)
Definition str := list char.

(** ASCII literal. *)
Definition lit (s : string) : str :=
  map N_of_ascii (list_ascii_of_string s).

Definition nl : char := 10%N.        (* '\n' *)
Definition space : char := 32%N.     (* ' '  *)
Definition dq : char := 34%N.        (* double quote *)
Definition lt : char := 60%N.        (* '<'  *)
Definition bullet : char := 8226%N.  (* U+2022 *)

(** WhiteSpace and LineTerminator code units, as removed by
    [String.prototype.trim]. *)
Definition is_ws (c : char) : bool :=
  existsb (N.eqb c)
    [9; 10; 11; 12; 13; 32; 160; 5760;
     8192; 8193; 8194; 8195; 8196; 8197; 8198; 8199; 8200; 8201; 8202;
     8232; 8233; 8239; 8287; 12288; 65279]%N.

Fixpoint trimStart (s : str) : str :=
  match s with
  | [] => []
  | c :: s' => if is_ws c then trimStart s' else s
  end.

Definition trimEnd (s : str) : str := rev (trimStart (rev s)).

(** [s.trim()] *)
Definition trim (s : str) : str := trimEnd (trimStart s).

(** Truthiness of a string: non-empty. *)
Definition truthy (s : str) : bool :=
  match s with [] => false | _ :: _ => true end.

(** [strip p s = Some r] when [s = p ++ r]. *)
Fixpoint strip (p s : str) : option str :=
  match p, s with
  | [], _ => Some s
  | _ :: _, [] => None
  | a :: p', b :: s' => if N.eqb a b then strip p' s' else None
  end.

(** [s.startsWith(p)] *)
Definition startsWith (s p : str) : bool :=
  match strip p s with Some _ => true | None => false end.

(** [s.endsWith(p)] *)
Definition endsWith (s p : str) : bool := startsWith (rev s) (rev p).

(** [s.includes(p)] *)
Fixpoint includes (s p : str) : bool :=
  startsWith s p ||
  match s with
  | [] => false
  | _ :: s' => includes s' p
  end.

(** [s.split('\n')] *)
Fixpoint split_nl (s : str) : list str :=
  match s with
  | [] => [[]]
  | c :: s' =>
      if N.eqb c nl then [] :: split_nl s'
      else match split_nl s' with
           | [] => [[c]]
           | l :: ls => (c :: l) :: ls
           end
  end.

(** [ls.join(sep)] *)
Fixpoint join (sep : str) (ls : list str) : str :=
  match ls with
  | [] => []
  | l :: ls' =>
      match ls' with
      | [] => l
      | _ :: _ => l ++ sep ++ join sep ls'
      end
  end.

(** [s.replace(p, r)] with a string pattern: the first occurrence only. *)
Fixpoint replaceFirst (p r s : str) : str :=
  match strip p s with
  | Some rest => r ++ rest
  | None =>
      match s with
      | [] => []
      | c :: s' => c :: replaceFirst p r s'
      end
  end.

(** [s.replace(/c/g, r)] for a one-code-unit pattern. *)
Definition replaceAllChar (c : char) (r : str) (s : str) : str :=
  flat_map (fun x => if N.eqb x c then r else [x]) s.

(** [s.replace(/p/g, r)] for a literal non-empty pattern: matches are
    taken leftmost first and do not overlap.  [skip] counts the code
    units of the current match still to be consumed. *)
Fixpoint replaceAllFrom (p r : str) (skip : nat) (s : str) : str :=
  match s with
  | [] => []
  | c :: s' =>
      match skip with
      | S k => replaceAllFrom p r k s'
      | O =>
          if startsWith s p
          then r ++ replaceAllFrom p r (length p - 1) s'
          else c :: replaceAllFrom p r 0 s'
      end
  end.

Definition replaceAll (p r s : str) : str := replaceAllFrom p r 0 s.

End JS.

Import JS.

(* ================================================================== *)
(** ** Voice capture and the debounced utterance assembler *)
(* ================================================================== *)

(** The three sources. *)
Inductive variant := GeneralApp | ColumbiaInline | ColumbiaRex.

Module Voice.

(** [event.results[i]]: its first alternative's transcript and [isFinal]. *)
Record result := { r_transcript : str; isFinal : bool }.

(** The argument of [recognition.onresult]. *)
Record speech_event := { resultIndex : nat; results : list result }.

Record world := mkWorld {
  (* React state of useVoiceRecognition *)
  isListening : bool;
  transcript : str;
  isSupported : bool;
  error : option str;
  (* variables closed over by the recognition callbacks *)
  submitTimeout : option nat;
  accumulatedTranscript : str;
  (* React state of the voice input component *)
  hasSubmitted : bool;
  (* the platform: recognizer, pending timeouts (id, deadline), clock *)
  recActive : bool;
  recStopping : bool;
  timers : list (nat * N);
  nextTimer : nat;
  now : N;
  (* calls of onTranscript, and the number of quiet-period expiries *)
  submitted : list str;
  expired : nat
}.

Definition set_isListening (x : bool) (w : world) : world :=
  {| isListening := x; transcript := transcript w;
     isSupported := isSupported w; error := error w;
     submitTimeout := submitTimeout w;
     accumulatedTranscript := accumulatedTranscript w;
     hasSubmitted := hasSubmitted w; recActive := recActive w;
     recStopping := recStopping w; timers := timers w;
     nextTimer := nextTimer w; now := now w; submitted := submitted w;
     expired := expired w |}.

Definition set_transcript (x : str) (w : world) : world :=
  {| isListening := isListening w; transcript := x;
     isSupported := isSupported w; error := error w;
     submitTimeout := submitTimeout w;
     accumulatedTranscript := accumulatedTranscript w;
     hasSubmitted := hasSubmitted w; recActive := recActive w;
     recStopping := recStopping w; timers := timers w;
     nextTimer := nextTimer w; now := now w; submitted := submitted w;
     expired := expired w |}.

Definition set_error (x : option str) (w : world) : world :=
  {| isListening := isListening w; transcript := transcript w;
     isSupported := isSupported w; error := x;
     submitTimeout := submitTimeout w;
     accumulatedTranscript := accumulatedTranscript w;
     hasSubmitted := hasSubmitted w; recActive := recActive w;
     recStopping := recStopping w; timers := timers w;
     nextTimer := nextTimer w; now := now w; submitted := submitted w;
     expired := expired w |}.

Definition set_submitTimeout (x : option nat) (w : world) : world :=
  {| isListening := isListening w; transcript := transcript w;
     isSupported := isSupported w; error := error w; submitTimeout := x;
     accumulatedTranscript := accumulatedTranscript w;
     hasSubmitted := hasSubmitted w; recActive := recActive w;
     recStopping := recStopping w; timers := timers w;
     nextTimer := nextTimer w; now := now w; submitted := submitted w;
     expired := expired w |}.

Definition set_accumulatedTranscript (x : str) (w : world) : world :=
  {| isListening := isListening w; transcript := transcript w;
     isSupported := isSupported w; error := error w;
     submitTimeout := submitTimeout w; accumulatedTranscript := x;
     hasSubmitted := hasSubmitted w; recActive := recActive w;
     recStopping := recStopping w; timers := timers w;
     nextTimer := nextTimer w; now := now w; submitted := submitted w;
     expired := expired w |}.

Definition set_hasSubmitted (x : bool) (w : world) : world :=
  {| isListening := isListening w; transcript := transcript w;
     isSupported := isSupported w; error := error w;
     submitTimeout := submitTimeout w;
     accumulatedTranscript := accumulatedTranscript w; hasSubmitted := x;
     recActive := recActive w; recStopping := recStopping w;
     timers := timers w; nextTimer := nextTimer w; now := now w;
     submitted := submitted w; expired := expired w |}.

Definition set_recActive (x : bool) (w : world) : world :=
  {| isListening := isListening w; transcript := transcript w;
     isSupported := isSupported w; error := error w;
     submitTimeout := submitTimeout w;
     accumulatedTranscript := accumulatedTranscript w;
     hasSubmitted := hasSubmitted w; recActive := x;
     recStopping := recStopping w; timers := timers w;
     nextTimer := nextTimer w; now := now w; submitted := submitted w;
     expired := expired w |}.

Definition set_recStopping (x : bool) (w : world) : world :=
  {| isListening := isListening w; transcript := transcript w;
     isSupported := isSupported w; error := error w;
     submitTimeout := submitTimeout w;
     accumulatedTranscript := accumulatedTranscript w;
     hasSubmitted := hasSubmitted w; recActive := recActive w;
     recStopping := x; timers := timers w; nextTimer := nextTimer w;
     now := now w; submitted := submitted w; expired := expired w |}.

Definition set_timers (x : list (nat * N)) (w : world) : world :=
  {| isListening := isListening w; transcript := transcript w;
     isSupported := isSupported w; error := error w;
     submitTimeout := submitTimeout w;
     accumulatedTranscript := accumulatedTranscript w;
     hasSubmitted := hasSubmitted w; recActive := recActive w;
     recStopping := recStopping w; timers := x; nextTimer := nextTimer w;
     now := now w; submitted := submitted w; expired := expired w |}.

Definition set_nextTimer (x : nat) (w : world) : world :=
  {| isListening := isListening w; transcript := transcript w;
     isSupported := isSupported w; error := error w;
     submitTimeout := submitTimeout w;
     accumulatedTranscript := accumulatedTranscript w;
     hasSubmitted := hasSubmitted w; recActive := recActive w;
     recStopping := recStopping w; timers := timers w; nextTimer := x;
     now := now w; submitted := submitted w; expired := expired w |}.

Definition set_now (x : N) (w : world) : world :=
  {| isListening := isListening w; transcript := transcript w;
     isSupported := isSupported w; error := error w;
     submitTimeout := submitTimeout w;
     accumulatedTranscript := accumulatedTranscript w;
     hasSubmitted := hasSubmitted w; recActive := recActive w;
     recStopping := recStopping w; timers := timers w;
     nextTimer := nextTimer w; now := x; submitted := submitted w;
     expired := expired w |}.

Definition set_submitted (x : list str) (w : world) : world :=
  {| isListening := isListening w; transcript := transcript w;
     isSupported := isSupported w; error := error w;
     submitTimeout := submitTimeout w;
     accumulatedTranscript := accumulatedTranscript w;
     hasSubmitted := hasSubmitted w; recActive := recActive w;
     recStopping := recStopping w; timers := timers w;
     nextTimer := nextTimer w; now := now w; submitted := x;
     expired := expired w |}.

Definition set_expired (x : nat) (w : world) : world :=
  {| isListening := isListening w; transcript := transcript w;
     isSupported := isSupported w; error := error w;
     submitTimeout := submitTimeout w;
     accumulatedTranscript := accumulatedTranscript w;
     hasSubmitted := hasSubmitted w; recActive := recActive w;
     recStopping := recStopping w; timers := timers w;
     nextTimer := nextTimer w; now := now w; submitted := submitted w;
     expired := x |}.

(** The hook before any event; timeout ids are positive, hence truthy. *)
Definition init (supported : bool) : world :=
  {| isListening := false; transcript := []; isSupported := supported;
     error := None; submitTimeout := None; accumulatedTranscript := [];
     hasSubmitted := false; recActive := false; recStopping := false;
     timers := []; nextTimer := 1; now := 0%N; submitted := [];
     expired := 0 |}.

(** *** Platform primitives *)

Definition clearTimeout (id : nat) (w : world) : world :=
  set_timers (filter (fun tm => negb (Nat.eqb (fst tm) id)) (timers w)) w.

Definition setTimeout (delay : N) (w : world) : nat * world :=
  let id := nextTimer w in
  (id, set_nextTimer (S id) (set_timers (timers w ++ [(id, (now w + delay)%N)]) w)).

(** [recognition.start()] throws when the recognizer is already started. *)
Definition recognition_start (w : world) : option world :=
  if recActive w then None else Some (set_recActive true w).

(** [recognition.stop()]: the platform will deliver [onend]. *)
Definition recognition_stop (w : world) : world :=
  if recActive w then set_recStopping true w else w.

(** What the platform does to the recognizer when it delivers [onend]. *)
Definition platform_end (w : world) : world :=
  set_recStopping false (set_recActive false w).

(** *** Callbacks installed by [useVoiceRecognition] *)

Definition QUIET : N := 5000%N.

Definition onstart (v : variant) (w : world) : world :=
  let w := set_error None (set_isListening true w) in
  match v with
  | ColumbiaRex => set_accumulatedTranscript [] w
  | _ => w
  end.

(** The [for] loop of [onresult]: final and interim text of the event. *)
Fixpoint scan (rs : list result) (finalTranscript interimTranscript : str)
  : str * str :=
  match rs with
  | [] => (finalTranscript, interimTranscript)
  | r :: rs' =>
      if isFinal r
      then scan rs' (finalTranscript ++ r_transcript r) interimTranscript
      else scan rs' finalTranscript (interimTranscript ++ r_transcript r)
  end.

Definition transcripts (ev : speech_event) : str * str :=
  scan (skipn (resultIndex ev) (results ev)) [] [].

Definition finalOf (ev : speech_event) : str := fst (transcripts ev).
Definition interimOf (ev : speech_event) : str := snd (transcripts ev).

(** The callback handed to [setTimeout] in [onresult]; [expired] counts
    its runs. *)
Definition timeoutCallback (v : variant) (w : world) : world :=
  let w := set_expired (S (expired w)) w in
  match v with
  | ColumbiaInline => recognition_stop w
  | _ => recognition_stop (set_accumulatedTranscript [] w)
  end.

Definition onresult (ev : speech_event) (w : world) : world :=
  let finalTranscript := finalOf ev in
  let interimTranscript := interimOf ev in
  let w :=
    if truthy finalTranscript
    then set_accumulatedTranscript
           (accumulatedTranscript w ++ finalTranscript ++ [space]) w
    else w in
  let currentTranscript := accumulatedTranscript w ++ interimTranscript in
  if truthy (trim currentTranscript) then
    let w := set_transcript (trim currentTranscript) w in
    let w := match submitTimeout w with
             | Some id => clearTimeout id w
             | None => w
             end in
    let (id, w) := setTimeout QUIET w in
    set_submitTimeout (Some id) w
  else w.

Definition onend (v : variant) (w : world) : world :=
  let w := set_isListening false w in
  match v with
  | ColumbiaInline =>
      match submitTimeout w with
      | Some id => clearTimeout id w
      | None => w
      end
  | _ => w
  end.

Definition error_prefix (v : variant) : str :=
  match v with
  | ColumbiaInline => lit "Speech recognition error: "
  | _ => lit "Voice recognition error: "
  end.

Definition onerror (v : variant) (e : str) (w : world) : world :=
  set_isListening false (set_error (Some (error_prefix v ++ e)) w).

(** *** What the hook returns, and the component around it *)

Definition startListening (v : variant) (w : world) : world :=
  if isSupported w && negb (isListening w) then
    let w := set_error None (set_transcript [] w) in
    match recognition_start w with
    | Some w' => w'
    | None =>
        match v with
        | ColumbiaInline => w   (* no try/catch: the exception escapes *)
        | _ => set_error (Some (lit "Failed to start voice recognition")) w
        end
    end
  else w.

Definition stopListening (w : world) : world :=
  if isSupported w && isListening w then recognition_stop w else w.

(** ColumbiaInline also selects the voice tab here, which is view state. *)
Definition handleStartListening (v : variant) (w : world) : world :=
  startListening v (set_hasSubmitted false w).

(** The [useEffect] on [transcript, isListening, hasSubmitted]: its guard
    only reads these, so running it after every event is the same as
    running it when one of them changed. *)
Definition submitEffect (w : world) : world :=
  if truthy (transcript w) && negb (isListening w) && negb (hasSubmitted w)
  then set_submitted (submitted w ++ [transcript w]) (set_hasSubmitted true w)
  else w.

(** *** Events *)

Inductive event :=
| ClickMic                       (* onClick of the microphone button *)
| OnStart                        (* recognition.onstart *)
| OnResult (ev : speech_event)   (* recognition.onresult *)
| OnEnd                          (* recognition.onend *)
| OnError (e : str).             (* recognition.onerror *)

Definition handle (v : variant) (e : event) (w : world) : world :=
  match e with
  | ClickMic =>
      if isListening w then stopListening w else handleStartListening v w
  | OnStart => onstart v w
  | OnResult ev => onresult ev w
  | OnEnd => onend v (platform_end w)
  | OnError e => onerror v e w
  end.

Definition due (t : N) (tm : nat * N) : bool := N.leb (snd tm) t.

(** Let the clock reach [t]: every pending timeout whose deadline has
    come is removed from the queue and its callback run. *)
Definition advance (v : variant) (t : N) (w : world) : world :=
  let fired := filter (due t) (timers w) in
  let w := set_timers (filter (fun tm => negb (due t tm)) (timers w)) w in
  let w := fold_left (fun w _ => timeoutCallback v w) fired w in
  set_now (N.max (now w) t) w.

(** One event delivered at time [t], followed by the render and its effect. *)
Definition step (v : variant) (te : N * event) (w : world) : world :=
  submitEffect (handle v (snd te) (advance v (fst te) w)).

Definition run (v : variant) (tes : list (N * event)) (w : world) : world :=
  fold_left (fun w te => step v te w) tes w.

(** A recognition event carrying one result. *)
Definition said (final : bool) (s : string) : event :=
  OnResult {| resultIndex := 0;
              results := [ {| r_transcript := lit s; isFinal := final |} ] |}.

End Voice.

Arguments Voice.advance : simpl never.
Arguments Voice.QUIET : simpl never.
Arguments JS.trim : simpl never.
Arguments JS.truthy : simpl never.

(* ================================================================== *)
(** ** The API hook: request gate and rules API client *)
(* ================================================================== *)

Module Api.

(** The [RulesResponse] interface, as parsed from the response body
    ([response_time], a number that is only displayed, is left out). *)
Record answer := {
  success : bool;
  answer_text : str;
  question : str;
  club_id : str;
  rule_type : str;
  rule_numbers : list str;
  confidence : str;
  error_msg : option str
}.

(** The JSON body of [POST /api/ask]. *)
Record body := { b_question : str; b_club_id : str; b_fast_mode : bool }.

(** A call of [fetch] that has not run to its [finally] yet. *)
Record fetch := {
  rid : nat;
  headersReceived : bool;     (* [await fetch(...)] has resolved *)
  abortAt : option N          (* deadline of the pending abort timeout *)
}.

Record world := mkWorld {
  (* React state of the hook *)
  loading : bool;
  response : option answer;
  error : option str;
  requestInProgress : bool;
  (* the platform: fetches under way, bodies handed to fetch, clock *)
  pending : list fetch;
  sent : list body;
  nextReq : nat;
  now : N
}.

Definition set_loading (x : bool) (w : world) : world :=
  {| loading := x; response := response w; error := error w;
     requestInProgress := requestInProgress w; pending := pending w;
     sent := sent w; nextReq := nextReq w; now := now w |}.

Definition set_response (x : option answer) (w : world) : world :=
  {| loading := loading w; response := x; error := error w;
     requestInProgress := requestInProgress w; pending := pending w;
     sent := sent w; nextReq := nextReq w; now := now w |}.

Definition set_error (x : option str) (w : world) : world :=
  {| loading := loading w; response := response w; error := x;
     requestInProgress := requestInProgress w; pending := pending w;
     sent := sent w; nextReq := nextReq w; now := now w |}.

Definition set_requestInProgress (x : bool) (w : world) : world :=
  {| loading := loading w; response := response w; error := error w;
     requestInProgress := x; pending := pending w; sent := sent w;
     nextReq := nextReq w; now := now w |}.

Definition set_pending (x : list fetch) (w : world) : world :=
  {| loading := loading w; response := response w; error := error w;
     requestInProgress := requestInProgress w; pending := x; sent := sent w;
     nextReq := nextReq w; now := now w |}.

Definition set_sent (x : list body) (w : world) : world :=
  {| loading := loading w; response := response w; error := error w;
     requestInProgress := requestInProgress w; pending := pending w;
     sent := x; nextReq := nextReq w; now := now w |}.

Definition set_nextReq (x : nat) (w : world) : world :=
  {| loading := loading w; response := response w; error := error w;
     requestInProgress := requestInProgress w; pending := pending w;
     sent := sent w; nextReq := x; now := now w |}.

Definition set_now (x : N) (w : world) : world :=
  {| loading := loading w; response := response w; error := error w;
     requestInProgress := requestInProgress w; pending := pending w;
     sent := sent w; nextReq := nextReq w; now := x |}.

Definition init : world :=
  {| loading := false; response := None; error := None;
     requestInProgress := false; pending := []; sent := [];
     nextReq := 0; now := 0%N |}.

Definition CLUB_ID : str := lit "columbia_cc".
Definition TIMEOUT : N := 10000%N.

Definition gated (v : variant) : bool :=
  match v with ColumbiaInline => false | _ => true end.

Definition msg_timeout : str := lit "Request timed out".

Definition msg_network (v : variant) : str :=
  match v with
  | ColumbiaInline => lit "Network error - please check your connection"
  | _ => lit "Network error. Please check your connection."
  end.

Definition msg_failed (v : variant) : str :=
  match v with
  | ColumbiaInline => lit "Failed to get rules information"
  | _ => lit "Failed to get response"
  end.

(** [fetch(url, {..., signal})], preceded in the gated sources by
    [setTimeout(() => controller.abort(), 10000)]. *)
Definition startFetch (v : variant) (q : str) (fastMode : bool) (w : world)
  : world :=
  let f := {| rid := nextReq w; headersReceived := false;
              abortAt := if gated v then Some (now w + TIMEOUT)%N else None |} in
  let b := {| b_question := q; b_club_id := CLUB_ID; b_fast_mode := fastMode |} in
  set_nextReq (S (nextReq w)) (set_sent (sent w ++ [b]) (set_pending (pending w ++ [f]) w)).

(** [askQuestion] up to its first [await].  The callback reads the
    [requestInProgress] and [loading] of the latest render; events are
    delivered one at a time with a render after each, so these are the
    current values. *)
Definition askQuestion (v : variant) (q : str) (fastMode : bool) (w : world)
  : world :=
  match v with
  | ColumbiaInline =>
      startFetch v q fastMode
        (set_response None (set_error None (set_loading true w)))
  | _ =>
      if requestInProgress w || loading w then w
      else startFetch v q fastMode
             (set_error None (set_loading true (set_requestInProgress true w)))
  end.

(** The [finally] block. *)
Definition finally (v : variant) (w : world) : world :=
  let w := set_loading false w in
  if gated v then set_requestInProgress false w else w.

(** The [catch] block; [aborted] tells whether [err.name] is AbortError. *)
Definition catch (v : variant) (aborted : bool) (w : world) : world :=
  match v with
  | ColumbiaInline => set_error (Some (msg_network v)) w
  | _ => set_error (Some (if aborted then msg_timeout else msg_network v)) w
  end.

(** The code after [await response.json()]. *)
Definition onData (v : variant) (data : answer) (w : world) : world :=
  if success data then
    let w := set_response (Some data) w in
    if gated v then set_error None w else w
  else
    let e := match error_msg data with
             | Some e => if truthy e then e else msg_failed v
             | None => msg_failed v
             end in
    set_error (Some e) w.

Definition find (r : nat) (w : world) : option fetch :=
  List.find (fun f => Nat.eqb (rid f) r) (pending w).

Definition remove (r : nat) (w : world) : world :=
  set_pending (filter (fun f => negb (Nat.eqb (rid f) r)) (pending w)) w.

(** [clearTimeout(timeoutId)] once the fetch has resolved. *)
Definition resolved (f : fetch) : fetch :=
  {| rid := rid f; headersReceived := true; abortAt := None |}.

Inductive event :=
| Ask (q : str) (fastMode : bool)     (* a call of askQuestion *)
| FetchRejects (r : nat)              (* transport failure *)
| FetchResolves (r : nat)             (* response headers arrived *)
| BodyParsed (r : nat) (data : answer)(* response.json() resolved *)
| BodyFails (r : nat).                (* response.json() rejected *)

Definition handle (v : variant) (e : event) (w : world) : world :=
  match e with
  | Ask q fastMode => askQuestion v q fastMode w
  | FetchRejects r =>
      match find r w with
      | Some f =>
          if headersReceived f then w
          else finally v (catch v false (remove r w))
      | None => w
      end
  | FetchResolves r =>
      match find r w with
      | Some f =>
          if headersReceived f then w
          else set_pending
                 (map (fun g => if Nat.eqb (rid g) r then resolved g else g)
                      (pending w)) w
      | None => w
      end
  | BodyParsed r data =>
      match find r w with
      | Some f =>
          if headersReceived f then finally v (onData v data (remove r w))
          else w
      | None => w
      end
  | BodyFails r =>
      match find r w with
      | Some f =>
          if headersReceived f then finally v (catch v false (remove r w))
          else w
      | None => w
      end
  end.

Definition due (t : N) (f : fetch) : bool :=
  match abortAt f with
  | Some d => N.leb d t
  | None => false
  end.

(** Let the clock reach [t]: every abort timeout whose deadline has come
    aborts its fetch, which rejects with an AbortError. *)
Definition advance (v : variant) (t : N) (w : world) : world :=
  let aborted := filter (due t) (pending w) in
  let w := set_pending (filter (fun f => negb (due t f)) (pending w)) w in
  let w := fold_left (fun w _ => finally v (catch v true w)) aborted w in
  set_now (N.max (now w) t) w.

(** One event delivered at time [t].  A timeout whose deadline is [t]
    itself is run before the event; the platform fixes no order between
    the two, and nothing stated below rests on it. *)
Definition step (v : variant) (te : N * event) (w : world) : world :=
  handle v (snd te) (advance v (fst te) w).

Definition run (v : variant) (tes : list (N * event)) (w : world) : world :=
  fold_left (fun w te => step v te w) tes w.

(** What the response component shows: the spinner hides the answer
    while [loading]. *)
Definition displayedAnswer (w : world) : option answer :=
  if loading w then None else response w.

End Api.

(* ================================================================== *)
(** ** Answer renderers *)
(* ================================================================== *)

Definition BR : str := lit "<br>".

(** The answer markup of [RulesResponse] in src/App.tsx. *)
Module RulesResponse.

Definition formatAnswer (answer : str) : str :=
  replaceAllChar bullet (lit "&bull;")
    (replaceAllChar nl BR answer).

End RulesResponse.

(** The answer markup of [ColumbiaRulesResponse], the same in both
    ColumbiaApp sources. *)
Module ColumbiaRulesResponse.

Definition marker : str := [bullet; space].

Definition item_open : str :=
  lit "<div style=" ++ [dq]
    ++ lit "display: flex; margin-bottom: 2px; padding-left: 0;" ++ [dq]
    ++ lit "><span style=" ++ [dq] ++ lit "margin-right: 8px;" ++ [dq]
    ++ lit ">&bull;</span><span>".

Definition item_close : str := lit "</span></div>".

Definition isBulletLine (line : str) : bool :=
  startsWith (trim line) marker.

(** The callback of [.map(line => ...)]. *)
Definition formatLine (line : str) : str :=
  if isBulletLine line
  then item_open ++ replaceFirst marker [] line ++ item_close
  else line.

Definition div_close : str := lit "</div>".
Definition div_flex : str := lit "<div style=" ++ [dq] ++ lit "display: flex".

(** The pattern and the replacement of the final [.replace(/.../g, ...)]. *)
Definition seam : str := div_close ++ BR ++ div_flex.
Definition seam_joined : str := div_close ++ div_flex.

Definition joinLines (answer : str) : str :=
  join BR (map formatLine (split_nl answer)).

Definition formatAnswer (answer : str) : str :=
  replaceAll seam seam_joined (joinLines answer).

End ColumbiaRulesResponse.

(* ================================================================== *)
(** ** The page component *)
(* ================================================================== *)

(** [GeneralApp] of src/App.tsx and [ColumbiaApp] of the two Columbia
    sources: the tab selector, the text form, the quick questions, and
    the wiring of every input path to [askQuestion]. *)
Module Page.

Inductive tab := VoiceTab | TextTab.

(** The [QuickQuestion] interface. *)
Record QuickQuestion := {
  id : str;
  text : str;
  category : str;
  icon : str
}.

(** How the request of [loadQuickQuestions] ends. *)
Inductive quick_result :=
| QuickData (success : bool) (questions : list QuickQuestion)
| QuickFails.                 (* [fetch] or [response.json()] rejects *)

Record world := {
  api : Api.world;                          (* [loading], [response], [error] *)
  quickQuestions : list QuickQuestion;      (* state of the API hook *)
  quickPending : bool;      (* the request made on mount has not ended *)
  activeTab : tab;
  textInput : str
}.

Definition set_api (x : Api.world) (w : world) : world :=
  {| api := x; quickQuestions := quickQuestions w;
     quickPending := quickPending w; activeTab := activeTab w;
     textInput := textInput w |}.

Definition setQuickQuestions (x : list QuickQuestion) (w : world) : world :=
  {| api := api w; quickQuestions := x; quickPending := quickPending w;
     activeTab := activeTab w; textInput := textInput w |}.

Definition set_quickPending (x : bool) (w : world) : world :=
  {| api := api w; quickQuestions := quickQuestions w; quickPending := x;
     activeTab := activeTab w; textInput := textInput w |}.

Definition setActiveTab (x : tab) (w : world) : world :=
  {| api := api w; quickQuestions := quickQuestions w;
     quickPending := quickPending w; activeTab := x;
     textInput := textInput w |}.

Definition setTextInput (x : str) (w : world) : world :=
  {| api := api w; quickQuestions := quickQuestions w;
     quickPending := quickPending w; activeTab := activeTab w;
     textInput := x |}.

(** The first render: the effect that runs once on mount has called
    [loadQuickQuestions]. *)
Definition init : world :=
  {| api := Api.init; quickQuestions := []; quickPending := true;
     activeTab := VoiceTab; textInput := [] |}.

(** The continuation of [loadQuickQuestions]: the list is stored when
    the success flag is set; a rejection is only logged. *)
Definition loadQuickQuestions (r : quick_result) (w : world) : world :=
  match r with
  | QuickData true questions => setQuickQuestions questions w
  | QuickData false _ => w
  | QuickFails => w
  end.

Definition handleQuestion (v : variant) (question : str) (w : world) : world :=
  setTextInput [] (set_api (Api.askQuestion v question true (api w)) w).

Definition handleTextSubmit (v : variant) (w : world) : world :=
  if truthy (trim (textInput w))
  then handleQuestion v (trim (textInput w)) w
  else w.

(** *** What is rendered *)

(** [disabled={loading}] of the textarea. *)
Definition textareaDisabled (w : world) : bool := Api.loading (api w).

(** [disabled={loading || !textInput.trim()}] of the submit button. *)
Definition submitDisabled (w : world) : bool :=
  Api.loading (api w) || negb (truthy (trim (textInput w))).

(** The quick questions are on the page: [!loading && !response], and
    the component returns null for an empty list. *)
Definition quickQuestionsShown (w : world) : bool :=
  negb (Api.loading (api w))
  && match Api.response (api w) with None => true | Some _ => false end
  && negb (Nat.eqb (length (quickQuestions w)) 0).

(** The banner of [{error && ...}]. *)
Definition errorBanner (w : world) : option str :=
  match Api.error (api w) with
  | Some m => if truthy m then Some m else None
  | None => None
  end.

(** *** Events *)

Inductive event :=
| SelectTab (t : tab)            (* click on a button of the tab selector *)
| Change (s : str)               (* [onChange] of the textarea *)
| SubmitForm                     (* click on the submit button *)
| SelectQuestion (i : nat)       (* click on the i-th quick question *)
| Transcript (q : str)           (* the voice effect hands over a transcript *)
| QuickLoaded (r : quick_result) (* the request made on mount ends *)
| Net (e : Api.event).           (* a fetch of [askQuestion] moves on *)

(** An event reaches its handler when the control it comes from is on
    the page and not disabled.  The form is rendered on the text tab.
    The voice effect lives in the [VoiceInput] of the voice tab, in
    ColumbiaInline in the page itself.  [askQuestion] is called through
    [handleQuestion] only. *)
Definition enabled (v : variant) (e : event) (w : world) : bool :=
  match e with
  | SelectTab _ => true
  | Change _ =>
      match activeTab w with
      | TextTab => negb (textareaDisabled w)
      | VoiceTab => false
      end
  | SubmitForm =>
      match activeTab w with
      | TextTab => negb (submitDisabled w)
      | VoiceTab => false
      end
  | SelectQuestion i =>
      quickQuestionsShown w && negb (Api.loading (api w))
      && Nat.ltb i (length (quickQuestions w))
  | Transcript _ =>
      match v, activeTab w with
      | ColumbiaInline, _ => true
      | _, VoiceTab => true
      | _, TextTab => false
      end
  | QuickLoaded _ => quickPending w
  | Net (Api.Ask _ _) => false
  | Net _ => true
  end.

(** In ColumbiaInline the voice button of the tab selector is the
    microphone button: [SelectTab VoiceTab] is the [setActiveTab] of its
    [handleStartListening], whose other effects are in [Voice]. *)
Definition react (v : variant) (e : event) (w : world) : world :=
  match e with
  | SelectTab t => setActiveTab t w
  | Change s => setTextInput s w
  | SubmitForm => handleTextSubmit v w
  | SelectQuestion i =>
      match nth_error (quickQuestions w) i with
      | Some q => handleQuestion v (text q) w
      | None => w
      end
  | Transcript q => handleQuestion v q w
  | QuickLoaded r => set_quickPending false (loadQuickQuestions r w)
  | Net e => set_api (Api.handle v e (api w)) w
  end.

Definition handle (v : variant) (e : event) (w : world) : world :=
  if enabled v e w then react v e w else w.

(** Let the clock reach [t]. *)
Definition advance (v : variant) (t : N) (w : world) : world :=
  set_api (Api.advance v t (api w)) w.

Definition step (v : variant) (te : N * event) (w : world) : world :=
  handle v (snd te) (advance v (fst te) w).

Definition run (v : variant) (tes : list (N * event)) (w : world) : world :=
  fold_left (fun w te => step v te w) tes w.

End Page.

(* ================================================================== *)
(** ** Notions used in the statements *)
(* ================================================================== *)

(** The accumulated text after one more recognition event. *)
Definition grow (acc : str) (ev : Voice.speech_event) : str :=
  if truthy (Voice.finalOf ev) then acc ++ Voice.finalOf ev ++ [space] else acc.

(** [currentTranscript] of [onresult]. *)
Definition current (acc : str) (ev : Voice.speech_event) : str :=
  grow acc ev ++ Voice.interimOf ev.

(** The text of the final results of an event, from [resultIndex] on,
    concatenated without a separator; likewise that of the others. *)
Definition final_text (ev : Voice.speech_event) : str :=
  concat (map Voice.r_transcript
            (filter Voice.isFinal
               (skipn (Voice.resultIndex ev) (Voice.results ev)))).

Definition interim_text (ev : Voice.speech_event) : str :=
  concat (map Voice.r_transcript
            (filter (fun r => negb (Voice.isFinal r))
               (skipn (Voice.resultIndex ev) (Voice.results ev)))).

(** Following the spec's words: the finalized segments of the events, in
    arrival order. *)
Definition finalized (evs : list Voice.speech_event) : list str :=
  flat_map
    (fun ev => map Voice.r_transcript
                 (filter Voice.isFinal
                    (skipn (Voice.resultIndex ev) (Voice.results ev)))) evs.

(** Following the spec's words: the latest interim text. *)
Definition latest_interim (evs : list Voice.speech_event) : str :=
  match rev evs with
  | [] => []
  | ev :: _ => interim_text ev
  end.

(** Following the spec's words: the finalized segments joined by a single
    space, concatenated with the latest interim text. *)
Definition spec_transcript (evs : list Voice.speech_event) : str :=
  join [space] (finalized evs) ++ latest_interim evs.

(** An event carrying one interim result. *)
Definition interim (s : string) : Voice.speech_event :=
  {| Voice.resultIndex := 0;
     Voice.results := [ {| Voice.r_transcript := lit s; Voice.isFinal := false |} ] |}.

(** Neither marker is set and no fetch is under way. *)
Definition cleared (w : Api.world) : Prop :=
  Api.loading w = false /\ Api.requestInProgress w = false /\ Api.pending w = [].

(** The invariant of the gated sources: the two markers agree, and a fetch
    is under way exactly while they are set. *)
Definition gate_ok (w : Api.world) : Prop :=
  Api.requestInProgress w = Api.loading w
  /\ if Api.loading w then exists f, Api.pending w = [f] else Api.pending w = [].

(** [s] contains [m] as a contiguous part. *)
Definition contains (s m : str) : Prop := exists x y, s = x ++ m ++ y.

(** A piece of HTML markup: it opens with an angle bracket and holds
    neither of the code units the renderers transform. *)
Definition markup (m : str) : Prop :=
  (exists m', m = lt :: m') /\ Forall (fun c => c <> nl /\ c <> bullet) m.

(** Rendered lines, with a separator chosen for each adjacent pair. *)
Fixpoint interleave (sep : str -> str -> str) (fmt : str -> str)
  (ls : list str) : str :=
  match ls with
  | [] => []
  | l :: ls' =>
      fmt l ++ match ls' with
               | [] => []
               | l' :: _ => sep l l' ++ interleave sep fmt ls'
               end
  end.

(** Following the spec's words: adjacent bullet lines are joined without
    a line break, any other adjacent lines are separated by one. *)
Definition spec_render (isBullet : str -> bool) (fmt : str -> str)
  (ls : list str) : str :=
  interleave (fun l l' => if isBullet l && isBullet l' then [] else BR) fmt ls.

(** The place between two formatted lines looks like the seam between two
    bullet items. *)
Definition seam_joint (l l' : str) : bool :=
  endsWith (ColumbiaRulesResponse.formatLine l) ColumbiaRulesResponse.div_close
  && startsWith (ColumbiaRulesResponse.formatLine l') ColumbiaRulesResponse.div_flex.

(** No formatted line holds the seam pattern itself. *)
Definition seam_free (ls : list str) : bool :=
  forallb (fun l => negb (includes (ColumbiaRulesResponse.formatLine l) ColumbiaRulesResponse.seam)) ls.

(** Only bullet lines meet in a seam. *)
Fixpoint joints_ok (ls : list str) : bool :=
  match ls with
  | [] => true
  | l :: ls' =>
      match ls' with
      | [] => true
      | l' :: _ =>
          (ColumbiaRulesResponse.isBulletLine l && ColumbiaRulesResponse.isBulletLine l'
           || negb (seam_joint l l'))
          && joints_ok ls'
      end
  end.

(** The lines of an answer that the final replace treats as the spec says. *)
Definition seam_safe (ls : list str) : bool := seam_free ls && joints_ok ls.

(** Neither string is a prefix of the other. *)
Definition mismatch (a b : str) : bool :=
  negb (startsWith a b) && negb (startsWith b a).

(** All the ways of cutting a string in two. *)
Fixpoint splits (s : str) : list (str * str) :=
  ([], s) ::
  match s with
  | [] => []
  | c :: s' => map (fun uq => (c :: fst uq, snd uq)) (splits s')
  end.

Definition is_nil (s : str) : bool :=
  match s with [] => true | _ :: _ => false end.

Fixpoint str_eqb (a b : str) : bool :=
  match a, b with
  | [], [] => true
  | c :: a', d :: b' => N.eqb c d && str_eqb a' b'
  | _, _ => false
  end.

(** How [RulesResponse] renders the bullets of one line. *)
Definition bull (line : str) : str := replaceAllChar bullet (lit "&bull;") line.

(** At most one timeout is pending, and it is the one [submitTimeout] names. *)
Definition one_timer (w : Voice.world) : Prop :=
  Voice.timers w = []
  \/ exists id d, Voice.timers w = [(id, d)] /\ Voice.submitTimeout w = Some id.

Definition result_events (tes : list (N * Voice.speech_event))
  : list (N * Voice.event) :=
  map (fun te => (fst te, Voice.OnResult (snd te))) tes.

(** No whitespace at either end. *)
Definition clean (s : str) : Prop :=
  trimStart s = s /\ trimStart (rev s) = rev s.

(** Only whitespace, or nothing. *)
Definition blank (s : str) : bool := forallb is_ws s.

(** Every recognition result of the sequence is blank. *)
Definition silent (tes : list (N * Voice.event)) : bool :=
  forallb (fun te => match snd te with
                     | Voice.OnResult ev =>
                         blank (Voice.finalOf ev) && blank (Voice.interimOf ev)
                     | _ => true
                     end) tes.

(** The JSON body [askQuestion] hands to [fetch]. *)
Definition body_of (q : str) (fm : bool) : Api.body :=
  {| Api.b_question := q; Api.b_club_id := Api.CLUB_ID; Api.b_fast_mode := fm |}.

(** The number of calls of [askQuestion] in a sequence of events. *)
Definition asks (tes : list (N * Api.event)) : nat :=
  length (filter (fun te => match snd te with
                            | Api.Ask _ _ => true
                            | _ => false
                            end) tes).

(** Nothing has been asked and nothing is shown. *)
Definition untouched (a : Api.world) : Prop :=
  Api.loading a = false /\ Api.response a = None /\ Api.error a = None
  /\ Api.requestInProgress a = false /\ Api.pending a = [].

(** The accumulated text after one more event: the final text of the
    event, when it has some, is appended and followed by one space. *)
Definition accumulate (acc : str) (ev : Voice.speech_event) : str :=
  if is_nil (final_text ev) then acc else acc ++ final_text ev ++ [space].

(** The accumulated text of a session that starts with none. *)
Definition accumulation (evs : list Voice.speech_event) : str :=
  concat (map (accumulate []) evs).

(** The text of an event: the accumulated text followed by the interim
    text of this event alone. *)
Definition shown_text (acc : str) (ev : Voice.speech_event) : str :=
  accumulate acc ev ++ interim_text ev.

(** The event re-arms the timer: its text is not blank. *)
Definition rearms (acc : str) (ev : Voice.speech_event) : bool :=
  truthy (trim (shown_text acc ev)).

(** The deadline of the pending timeout, if one is pending. *)
Definition deadline_of (w : Voice.world) : option N :=
  match Voice.timers w with
  | [] => None
  | tm :: _ => Some (snd tm)
  end.

(** The deadline after a run of result events: an event that re-arms
    replaces the pending timeout by one a quiet period after its arrival,
    any other event leaves it as it is. *)
Fixpoint rearmed (acc : str) (d : option N)
  (tes : list (N * Voice.speech_event)) : option N :=
  match tes with
  | [] => d
  | te :: tes' =>
      rearmed (accumulate acc (snd te))
        (if rearms acc (snd te) then Some (fst te + Voice.QUIET)%N else d)
        tes'
  end.

(** The exposed transcript after a run of result events: an event that
    re-arms replaces it by its trimmed text, any other leaves it. *)
Fixpoint exposed (acc tr : str) (evs : list Voice.speech_event) : str :=
  match evs with
  | [] => tr
  | ev :: evs' =>
      exposed (accumulate acc ev)
        (if rearms acc ev then trim (shown_text acc ev) else tr) evs'
  end.

(** No quiet period runs out before the last event: the events come in
    the order of their times, each strictly before the deadline of the
    timeout pending at its arrival. *)
Fixpoint in_time (prev : N) (acc : str) (d : option N)
  (tes : list (N * Voice.speech_event)) : bool :=
  match tes with
  | [] => true
  | te :: tes' =>
      N.leb prev (fst te)
      && match d with
         | Some dl => N.ltb (fst te) dl
         | None => true
         end
      && in_time (fst te) (accumulate acc (snd te))
           (if rearms acc (snd te) then Some (fst te + Voice.QUIET)%N else d)
           tes'
  end.

(** The number of clicks that start a session: those that find the hook
    not listening, for which the button calls [handleStartListening]. *)
Fixpoint starts (v : variant) (tes : list (N * Voice.event)) (w : Voice.world)
  : nat :=
  match tes with
  | [] => 0
  | te :: tes' =>
      match snd te with
      | Voice.ClickMic => if Voice.isListening w then 0 else 1
      | _ => 0
      end + starts v tes' (Voice.step v te w)
  end.

(* ================================================================== *)
(** ** Scenarios *)
(* ================================================================== *)

(** An event carrying one final result. *)
Definition phrase (s : string) : Voice.speech_event :=
  {| Voice.resultIndex := 0;
     Voice.results := [ {| Voice.r_transcript := lit s; Voice.isFinal := true |} ] |}.

(** The answer text of the spec's formatting example. *)
Definition example_answer : str :=
  lit "line one" ++ [nl; bullet] ++ lit " item a" ++ [nl; bullet]
    ++ lit " item b" ++ [nl] ++ lit "line two".

(** A session in which the user says one final phrase and clicks the
    microphone again one second later. *)
Definition stopped_session : list (N * Voice.event) :=
  [(0, Voice.ClickMic); (100, Voice.OnStart); (1000, Voice.said true "hello");
   (2000, Voice.ClickMic); (2100, Voice.OnEnd)]%N.

(** A session in which one final phrase has been heard. *)
Definition heard_hello : Voice.world :=
  Eval vm_compute in
    Voice.run GeneralApp
      [(0, Voice.ClickMic); (100, Voice.OnStart);
       (1000, Voice.said true "hello")]%N (Voice.init true).

(** A session that has just started. *)
Definition started_session : Voice.world :=
  Eval vm_compute in
    Voice.run GeneralApp [(0, Voice.ClickMic); (100, Voice.OnStart)]%N
      (Voice.init true).

(** A second session, begun after [stopped_session]. *)
Definition restarted_session : list (N * Voice.event) :=
  stopped_session ++ [(3000, Voice.ClickMic); (3100, Voice.OnStart)]%N.

(** Two questions, asked a tenth of a second apart. *)
Definition two_questions : list (N * Api.event) :=
  [(0%N, Api.Ask (lit "what is the rule for a lost ball") true);
   (100%N, Api.Ask (lit "can I move a loose impediment") true)].

(** A request whose response headers arrived after one second. *)
Definition headers_received : Api.world :=
  Eval vm_compute in
    Api.run GeneralApp
      [(0%N, Api.Ask (lit "what is the rule for a lost ball") true);
       (1000%N, Api.FetchResolves 0)] Api.init.

(** A successful response of the rules service. *)
Definition lost_ball_answer : Api.answer :=
  {| Api.success := true;
     Api.answer_text := lit "Stroke and distance.";
     Api.question := lit "what is the rule for a lost ball";
     Api.club_id := Api.CLUB_ID;
     Api.rule_type := lit "official";
     Api.rule_numbers := [lit "18.2"];
     Api.confidence := lit "high";
     Api.error_msg := None |}.

(** A response of the rules service with a false success flag. *)
Definition club_not_found : Api.answer :=
  {| Api.success := false; Api.answer_text := []; Api.question := [];
     Api.club_id := []; Api.rule_type := []; Api.rule_numbers := [];
     Api.confidence := []; Api.error_msg := Some (lit "club not found") |}.

(** A first question has been answered. *)
Definition answered (v : variant) : Api.world :=
  Api.run v
    [(0%N, Api.Ask (lit "what is the rule for a lost ball") true);
     (400%N, Api.FetchResolves 0);
     (450%N, Api.BodyParsed 0 lost_ball_answer)] Api.init.

(** The user opens the text tab and types a question with spaces around
    it. *)
Definition typing : list (N * Page.event) :=
  [(0%N, Page.QuickLoaded Page.QuickFails);
   (500%N, Page.SelectTab Page.TextTab);
   (1500%N, Page.Change (lit "  lost ball? "))].

(** The quick questions cannot be loaded, and the user only switches
    tabs. *)
Definition quick_load_fails : list (N * Page.event) :=
  [(300%N, Page.QuickLoaded Page.QuickFails);
   (500%N, Page.SelectTab Page.TextTab);
   (900%N, Page.SelectTab Page.VoiceTab)].

(** A question whose request fails in transit. *)
Definition rejected_question : list (N * Api.event) :=
  [(0%N, Api.Ask (lit "what is the rule for a lost ball") true);
   (300%N, Api.FetchRejects 0)].

(** A first question answered. *)
Definition answered_question : list (N * Api.event) :=
  [(0%N, Api.Ask (lit "what is the rule for a lost ball") true);
   (400%N, Api.FetchResolves 0);
   (450%N, Api.BodyParsed 0 lost_ball_answer)].

(** The quick questions have been loaded and the user picks the first
    one. *)
Definition picked_question : list (N * Page.event) :=
  [(200%N, Page.QuickLoaded
             (Page.QuickData true
                [ {| Page.id := lit "1";
                     Page.text := lit "What is the penalty for a lost ball?";
                     Page.category := lit "penalties";
                     Page.icon := lit "?" |} ]));
   (1000%N, Page.SelectQuestion 0)].

(* ================================================================== *)
(** ** Proof tactics *)
(* ================================================================== *)

(** Case analysis on the conditionals of a handler. *)
Ltac crush_handler :=
  repeat match goal with
    | |- context [if ?b then _ else _] => destruct b eqn:?; cbn
    | |- context [match ?x with Some _ => _ | None => _ end] =>
        destruct x eqn:?; cbn
    end; try congruence; try reflexivity.

(** Case analysis on the conditionals of the API hook, after simplification. *)
Ltac gate_cases :=
  repeat (cbn;
          match goal with
          | |- context [if ?b then _ else _] => destruct b eqn:?
          | |- context [match ?x with Some _ => _ | None => _ end] =>
              destruct x eqn:?
          end);
  cbn.

(* ================================================================== *)
(** ** The examples of the spec *)
(* ================================================================== *)

(** [ColumbiaRulesResponse] on the example: a plain line, two bullet items
    with nothing between them, and a plain line. *)
Example columbia_example :
  ColumbiaRulesResponse.formatAnswer example_answer
  = lit "line one" ++ BR
      ++ ColumbiaRulesResponse.item_open ++ lit "item a" ++ ColumbiaRulesResponse.item_close
      ++ ColumbiaRulesResponse.item_open ++ lit "item b" ++ ColumbiaRulesResponse.item_close
      ++ BR ++ lit "line two".
Proof. vm_compute. reflexivity. Qed.

(** [RulesResponse] on the example. *)
Example general_example :
  RulesResponse.formatAnswer example_answer
  = lit "line one<br>&bull; item a<br>&bull; item b<br>line two".
Proof. vm_compute. reflexivity. Qed.

(* ================================================================== *)
(** ** Voice capture: when a submission is dispatched *)
(* ================================================================== *)

Section VoiceSubmission.
Import Voice.

Variable v : variant.

(** Expired timeouts touch neither the React state nor the submissions. *)
Lemma callbacks_keep_react (l : list (nat * N)) (w : world) :
  let w' := fold_left (fun w _ => timeoutCallback v w) l w in
  isListening w' = isListening w /\ transcript w' = transcript w
  /\ hasSubmitted w' = hasSubmitted w /\ submitted w' = submitted w
  /\ isSupported w' = isSupported w /\ submitTimeout w' = submitTimeout w.
Proof.
  revert w; induction l as [|tm l IH]; intro w; cbn.
  - repeat split.
  - destruct (IH (timeoutCallback v w)) as (A & B & C & D & E & F).
    cbn in A, B, C, D, E, F.
    rewrite A, B, C, D, E, F.
    unfold timeoutCallback, recognition_stop.
    destruct v; cbn; destruct (recActive w); cbn; repeat split.
Qed.

Lemma advance_keeps_react (t : N) (w : world) :
  isListening (advance v t w) = isListening w
  /\ transcript (advance v t w) = transcript w
  /\ hasSubmitted (advance v t w) = hasSubmitted w
  /\ submitted (advance v t w) = submitted w
  /\ isSupported (advance v t w) = isSupported w
  /\ submitTimeout (advance v t w) = submitTimeout w.
Proof.
  unfold advance; cbn.
  apply (callbacks_keep_react (filter (due t) (timers w))
           (set_timers (filter (fun tm => negb (due t tm)) (timers w)) w)).
Qed.

(** An expiry by itself submits nothing: it only asks the recognizer to stop. *)
Lemma expiry_submits_nothing (t : N) (w : world) :
  submitted (advance v t w) = submitted w.
Proof. apply advance_keeps_react. Qed.

Lemma effect_fires (w : world) :
  truthy (transcript w) = true -> isListening w = false ->
  hasSubmitted w = false ->
  submitted (submitEffect w) = submitted w ++ [transcript w].
Proof. intros A B C; unfold submitEffect; rewrite A, B, C; reflexivity. Qed.

Lemma effect_idle (w : world) :
  isListening w = true -> submitEffect w = w.
Proof.
  intros A; unfold submitEffect; rewrite A.
  now rewrite andb_false_r.
Qed.

Lemma onend_fields (w : world) :
  isListening (onend v (platform_end w)) = false
  /\ transcript (onend v (platform_end w)) = transcript w
  /\ hasSubmitted (onend v (platform_end w)) = hasSubmitted w
  /\ submitted (onend v (platform_end w)) = submitted w.
Proof.
  unfold onend; destruct v; cbn; try (repeat split; fail).
  destruct (submitTimeout w); cbn; repeat split.
Qed.

Lemma ended_submits (t : N) (w : world) :
  hasSubmitted w = false -> truthy (transcript w) = true ->
  submitted (step v (t, OnEnd) w) = submitted w ++ [transcript w].
Proof.
  intros HS HT; unfold step; cbn [fst snd handle].
  destruct (advance_keeps_react t w) as (_ & B & C & D & _).
  destruct (onend_fields (advance v t w)) as (A' & B' & C' & D').
  rewrite effect_fires by congruence.
  rewrite D', B', D, B; reflexivity.
Qed.

Lemma ended_marks (t : N) (w : world) :
  hasSubmitted w = false -> truthy (transcript w) = true ->
  hasSubmitted (step v (t, OnEnd) w) = true.
Proof.
  intros HS HT; unfold step; cbn [fst snd handle].
  destruct (advance_keeps_react t w) as (_ & B & C & D & _).
  destruct (onend_fields (advance v t w)) as (A' & B' & C' & D').
  unfold submitEffect. rewrite A', B', B, HT, C', C, HS. reflexivity.
Qed.

Lemma listening_handle (e : event) (w : world) :
  isListening w = true ->
  match e with OnEnd | OnError _ => False | _ => True end ->
  isListening (handle v e w) = true
  /\ submitted (handle v e w) = submitted w
  /\ hasSubmitted (handle v e w) = hasSubmitted w.
Proof.
  intros L He.
  destruct e; try contradiction; cbn [handle].
  - rewrite L. unfold stopListening, recognition_stop.
    repeat split; crush_handler.
  - unfold onstart; destruct v; repeat split; reflexivity.
  - unfold onresult, setTimeout, clearTimeout.
    repeat split; cbn; crush_handler.
Qed.

Lemma listening_step_quiet (t : N) (e : event) (w : world) :
  isListening w = true ->
  match e with OnEnd | OnError _ => False | _ => True end ->
  submitted (step v (t, e) w) = submitted w
  /\ isListening (step v (t, e) w) = true
  /\ hasSubmitted (step v (t, e) w) = hasSubmitted w.
Proof.
  intros L He. unfold step; cbn [fst snd].
  destruct (advance_keeps_react t w) as (A & B & C & D & _).
  destruct (listening_handle e (advance v t w)) as (L' & S' & H');
    [congruence | exact He |].
  rewrite (effect_idle _ L').
  repeat split; congruence.
Qed.

Lemma click_keeps_transcript (t : N) (w : world) :
  isListening w = true ->
  transcript (step v (t, ClickMic) w) = transcript w.
Proof.
  intro L. unfold step; cbn [fst snd].
  destruct (advance_keeps_react t w) as (A & B & _).
  destruct (listening_handle ClickMic (advance v t w)) as (L' & _);
    [congruence | exact I |].
  rewrite (effect_idle _ L'). cbn [handle]. rewrite A, L, <- B.
  unfold stopListening, recognition_stop. crush_handler.
Qed.

(** Once a session has submitted, nothing more is submitted until the
    user starts a new one. *)
Lemma no_second_submission (t : N) (e : event) (w : world) :
  hasSubmitted w = true ->
  (e = ClickMic -> isListening w = true) ->
  submitted (step v (t, e) w) = submitted w
  /\ hasSubmitted (step v (t, e) w) = true.
Proof.
  intros HS Hclick. unfold step; cbn [fst snd].
  destruct (advance_keeps_react t w) as (A & _ & C & D & _).
  generalize dependent (advance v t w). intros w1 A C D.
  assert (H : hasSubmitted (handle v e w1) = true
              /\ submitted (handle v e w1) = submitted w).
  { destruct e; cbn [handle].
    - rewrite A, (Hclick eq_refl). unfold stopListening, recognition_stop.
      split; crush_handler.
    - unfold onstart. destruct v; cbn; split; congruence.
    - unfold onresult, setTimeout, clearTimeout. split; cbn; crush_handler.
    - unfold onend, platform_end, clearTimeout.
      destruct v; cbn; split; crush_handler.
    - unfold onerror. cbn. split; congruence. }
  destruct H as [H1 H2]. unfold submitEffect.
  rewrite H1, andb_false_r. split; congruence.
Qed.

(** C1 (as the code has it): a submission is dispatched when capture ends
    while the exposed transcript is non-empty and nothing was submitted in
    the session yet, whatever ended capture: [onend] after the stop that a
    quiet-period expiry requests, [onend] after an explicit stop by the
    user, and [onerror] all submit the exposed transcript; while capture is
    active (click, start and result events) nothing is submitted. *)
Theorem submission_when_capture_ends (t t' : N) (e : str) (w : world) :
  isListening w = true -> hasSubmitted w = false ->
  truthy (transcript w) = true ->
  submitted (step v (t, OnEnd) w) = submitted w ++ [transcript w]
  /\ submitted (step v (t, OnError e) w) = submitted w ++ [transcript w]
  /\ submitted (run v [(t, ClickMic); (t', OnEnd)] w)
     = submitted w ++ [transcript w]
  /\ (forall ev, submitted (step v (t, OnResult ev) w) = submitted w)
  /\ submitted (step v (t, OnStart) w) = submitted w
  /\ submitted (step v (t, ClickMic) w) = submitted w.
Proof.
  intros L HS HT.
  split; [now apply ended_submits|].
  split.
  { unfold step; cbn [fst snd handle].
    destruct (advance_keeps_react t w) as (_ & B & C & D & _).
    generalize dependent (advance v t w); intros w1 B C D.
    rewrite effect_fires; unfold onerror; cbn; congruence. }
  split.
  { cbn [run fold_left].
    destruct (listening_step_quiet t ClickMic w L I) as (S1 & L1 & H1).
    rewrite ended_submits.
    - rewrite S1, click_keeps_transcript by exact L. reflexivity.
    - congruence.
    - rewrite click_keeps_transcript by exact L. exact HT. }
  split; [intro ev; now apply (listening_step_quiet t (OnResult ev))|].
  split; [now apply (listening_step_quiet t OnStart)|].
  now apply (listening_step_quiet t ClickMic).
Qed.

End VoiceSubmission.

(** C1 (as stated) fails: the user stops capture one second after speaking;
    no quiet period has expired, and yet the phrase is submitted. *)
Lemma explicit_stop_submits :
  let w := Voice.run GeneralApp stopped_session (Voice.init true) in
  Voice.expired w = 0 /\ Voice.submitted w = [lit "hello"]
  /\ ~ (Voice.submitted w <> [] -> 0 < Voice.expired w).
Proof.
  vm_compute. repeat split.
  intro H. specialize (H ltac:(discriminate)). inversion H.
Qed.

Lemma submission_when_capture_ends_witness :
  Voice.submitted (Voice.step GeneralApp (2100%N, Voice.OnEnd) heard_hello)
  = Voice.submitted heard_hello ++ [Voice.transcript heard_hello].
Proof.
  refine (proj1 (submission_when_capture_ends GeneralApp 2100%N 2100%N []
                   heard_hello _ _ _)); reflexivity.
Defined.

(* ================================================================== *)
(** ** The quiet-period timer *)
(* ================================================================== *)

Section QuietPeriod.
Import Voice.

Variable v : variant.

Lemma filter_none {A} (f : A -> bool) (l : list A) :
  (forall x, In x l -> f x = false) -> filter f l = [].
Proof.
  induction l as [|a l IH]; intro H; cbn; [reflexivity|].
  rewrite (H a (or_introl eq_refl)). apply IH. intros x Hx. apply H. now right.
Qed.

Lemma filter_all {A} (f : A -> bool) (l : list A) :
  (forall x, In x l -> f x = true) -> filter f l = l.
Proof.
  induction l as [|a l IH]; intro H; cbn; [reflexivity|].
  rewrite (H a (or_introl eq_refl)). f_equal. apply IH.
  intros x Hx. apply H. now right.
Qed.

(** Before the pending deadline, letting time pass only moves the clock. *)
Lemma advance_early (t : N) (w : world) :
  (forall tm, In tm (timers w) -> (t < snd tm)%N) ->
  advance v t w = set_now (N.max (now w) t) w.
Proof.
  intro H. unfold advance.
  rewrite filter_none, filter_all.
  - destruct w; reflexivity.
  - intros tm Hin. unfold due. apply negb_true_iff, N.leb_gt. now apply H.
  - intros tm Hin. unfold due. apply N.leb_gt. now apply H.
Qed.

Lemma grow_world (ev : speech_event) (w : world) :
  (if truthy (finalOf ev)
   then set_accumulatedTranscript
          (accumulatedTranscript w ++ finalOf ev ++ [space]) w
   else w)
  = set_accumulatedTranscript (grow (accumulatedTranscript w) ev) w.
Proof. unfold grow. destruct (truthy (finalOf ev)); destruct w; reflexivity. Qed.

(** One audible result event, delivered before the pending deadline:
    the timeout is replaced by a fresh one, a quiet period from now. *)
Lemma result_step (t : N) (ev : speech_event) (w : world) :
  one_timer w -> isListening w = true ->
  (now w <= t)%N ->
  (forall tm, In tm (timers w) -> (t < snd tm)%N) ->
  truthy (trim (current (accumulatedTranscript w) ev)) = true ->
  step v (t, OnResult ev) w
  = {| isListening := true;
       transcript := trim (current (accumulatedTranscript w) ev);
       isSupported := isSupported w; error := error w;
       submitTimeout := Some (nextTimer w);
       accumulatedTranscript := grow (accumulatedTranscript w) ev;
       hasSubmitted := hasSubmitted w; recActive := recActive w;
       recStopping := recStopping w;
       timers := [(nextTimer w, (t + QUIET)%N)];
       nextTimer := S (nextTimer w); now := t;
       submitted := submitted w; expired := expired w |}.
Proof.
  intros T L Hnow Hearly Haud.
  unfold step; cbn [fst snd handle].
  rewrite (advance_early t w Hearly).
  replace (N.max (now w) t) with t by lia.
  unfold onresult. rewrite (grow_world ev (set_now t w)).
  destruct w as [l tr sup er st acc hs ra rs tms nt nw sb ex];
    cbn in *; subst l.
  fold (current acc ev). rewrite Haud.
  destruct T as [E | (id & d & E & E')]; cbn in E; subst tms.
  - destruct st; (rewrite effect_idle; [reflexivity|reflexivity]).
  - cbn in E'; subst st. cbn. rewrite Nat.eqb_refl.
    rewrite effect_idle; reflexivity.
Qed.

(** The pending timeout fires once its deadline is reached, and asks the
    recognizer to stop. *)
Lemma expiry (id : nat) (d t : N) (w : world) :
  timers w = [(id, d)] -> (d <= t)%N -> recActive w = true ->
  let we := advance v t w in
  timers we = [] /\ expired we = S (expired w) /\ recStopping we = true.
Proof.
  intros E Hd R. unfold advance. rewrite E. cbn [filter].
  unfold due; cbn [snd]. apply N.leb_le in Hd. rewrite Hd. cbn.
  unfold timeoutCallback, recognition_stop.
  destruct v; cbn; rewrite R; cbn; repeat split.
Qed.

Lemma callbacks_keep_timers (l : list (nat * N)) (w : world) :
  timers (fold_left (fun w _ => timeoutCallback v w) l w) = timers w.
Proof.
  revert w; induction l as [|tm l IH]; intro w; cbn; [reflexivity|].
  rewrite IH. unfold timeoutCallback, recognition_stop.
  destruct v; cbn; destruct (recActive w); reflexivity.
Qed.

Lemma advance_timers (t : N) (w : world) :
  timers (advance v t w) = filter (fun tm => negb (due t tm)) (timers w).
Proof. unfold advance; cbn. now rewrite callbacks_keep_timers. Qed.

Lemma one_timer_advance (t : N) (w : world) :
  one_timer w -> one_timer (advance v t w).
Proof.
  intros [E | (id & d & E & E')]; unfold one_timer;
    rewrite advance_timers, E; cbn.
  - now left.
  - destruct (negb (due t (id, d))); [right | now left].
    exists id, d. split; [reflexivity|].
    destruct (advance_keeps_react v t w) as (_ & _ & _ & _ & _ & F).
    congruence.
Qed.

Lemma one_timer_cleared (id : nat) (w : world) :
  one_timer w -> submitTimeout w = Some id -> timers (clearTimeout id w) = [].
Proof.
  intros [E | (id' & d & E & E')] Hid; unfold clearTimeout; cbn; rewrite E;
    [reflexivity|].
  assert (id' = id) by congruence; subst id'.
  cbn. now rewrite Nat.eqb_refl.
Qed.

Lemma one_timer_handle (e : event) (w : world) :
  one_timer w -> one_timer (handle v e w).
Proof.
  intro T. destruct e; cbn [handle].
  - unfold stopListening, handleStartListening, startListening,
      recognition_stop, recognition_start.
    destruct T as [E | (id & d & E & E')]; unfold one_timer;
      crush_handler; cbn; auto;
      try (destruct v; cbn; auto); right; exists id, d; cbn; auto.
  - unfold onstart. destruct T as [E | (id & d & E & E')]; unfold one_timer;
      destruct v; cbn; auto; right; exists id, d; auto.
  - unfold onresult. rewrite grow_world.
    destruct w as [l tr sup er st acc hs ra rs tms nt nw sb ex].
    unfold one_timer in *; cbn in *.
    match goal with |- context [truthy (trim ?x)] =>
      destruct (truthy (trim x)) end; cbn.
    + right. exists nt, (nw + QUIET)%N.
      destruct T as [E | (id & d & E & E')]; subst.
      * destruct st; cbn; now split.
      * cbn. rewrite Nat.eqb_refl. cbn. now split.
    + destruct T as [E | (id & d & E & E')]; auto.
      right; exists id, d; auto.
  - unfold onend, platform_end.
    destruct v; cbn [submitTimeout set_isListening set_recStopping
                       set_recActive];
      try (destruct T as [E | (id & d & E & E')]; unfold one_timer; cbn; auto;
           right; exists id, d; now auto).
    destruct (submitTimeout w) as [id|] eqn:Est.
    + left. pose proof (one_timer_cleared id w T Est) as C.
      unfold clearTimeout in *; cbn in *. exact C.
    + destruct T as [E | (id & d & E & E')]; [|congruence].
      left; exact E.
  - unfold onerror. destruct T as [E | (id & d & E & E')]; unfold one_timer;
      cbn; auto. right; exists id, d; auto.
Qed.

Lemma one_timer_effect (w : world) :
  one_timer w -> one_timer (submitEffect w).
Proof.
  unfold submitEffect, one_timer.
  destruct (truthy (transcript w) && negb (isListening w)
            && negb (hasSubmitted w)); cbn; auto.
Qed.

(** The invariant of the data model: at most one quiet-period timer is
    armed at any time, in every state the hook can reach. *)
Lemma one_timer_run (tes : list (N * event)) :
  forall w, one_timer w -> one_timer (run v tes w).
Proof.
  induction tes as [|te tes IH]; intros w T; cbn; [exact T|].
  apply IH. unfold step.
  now apply one_timer_effect, one_timer_handle, one_timer_advance.
Qed.

Lemma at_most_one_timer (supported : bool) (tes : list (N * event)) :
  length (timers (run v tes (init supported))) <= 1.
Proof.
  destruct (one_timer_run tes (init supported)) as [E | (id & d & E & _)];
    [now left | |]; rewrite E; cbn; lia.
Qed.

End QuietPeriod.

(** *** Runs of result events *)

Section ResultRuns.
Import Voice.

Variable v : variant.

Lemma scan_texts (rs : list result) :
  forall f i,
    scan rs f i
    = (f ++ concat (map r_transcript (filter isFinal rs)),
       i ++ concat (map r_transcript
                      (filter (fun r => negb (isFinal r)) rs))).
Proof.
  induction rs as [|r rs IH]; intros f i; cbn [scan filter].
  - cbn. now rewrite !app_nil_r.
  - destruct (isFinal r); cbn [negb map concat]; rewrite IH;
      now rewrite <- ?app_assoc.
Qed.

(** The loop of [onresult] computes the two texts of the event. *)
Lemma texts_of_event (ev : speech_event) :
  finalOf ev = final_text ev /\ interimOf ev = interim_text ev.
Proof.
  unfold finalOf, interimOf, transcripts. rewrite scan_texts. now split.
Qed.

Lemma grow_accumulate (acc : str) (ev : speech_event) :
  grow acc ev = accumulate acc ev.
Proof.
  unfold grow, accumulate. rewrite (proj1 (texts_of_event ev)).
  now destruct (final_text ev).
Qed.

Lemma current_shown (acc : str) (ev : speech_event) :
  current acc ev = shown_text acc ev.
Proof.
  unfold current, shown_text.
  now rewrite grow_accumulate, (proj2 (texts_of_event ev)).
Qed.

Lemma early_enough (t : N) (w : world) :
  one_timer w ->
  match deadline_of w with Some dl => (t < dl)%N | None => True end ->
  forall tm, In tm (timers w) -> (t < snd tm)%N.
Proof.
  unfold deadline_of. intros [E | (id & d & E & _)] H tm Hin;
    rewrite E in *; cbn in *; [contradiction|].
  destruct Hin as [<- | []]. exact H.
Qed.

(** One result event, delivered in time order before the pending
    deadline. *)
Lemma result_in_time (t : N) (ev : speech_event) (w : world) :
  one_timer w -> isListening w = true -> (now w <= t)%N ->
  match deadline_of w with Some dl => (t < dl)%N | None => True end ->
  let acc := accumulatedTranscript w in
  let w1 := step v (t, OnResult ev) w in
  (one_timer w1 /\ isListening w1 = true /\ now w1 = t)
  /\ deadline_of w1
     = (if rearms acc ev then Some (t + QUIET)%N else deadline_of w)
  /\ transcript w1
     = (if rearms acc ev then trim (shown_text acc ev) else transcript w)
  /\ accumulatedTranscript w1 = accumulate acc ev
  /\ hasSubmitted w1 = hasSubmitted w /\ recActive w1 = recActive w
  /\ recStopping w1 = recStopping w
  /\ submitted w1 = submitted w /\ expired w1 = expired w.
Proof.
  intros T L Hnow Hd acc w1. subst acc w1.
  pose proof (early_enough t w T Hd) as Hearly.
  unfold rearms. rewrite <- current_shown, <- grow_accumulate.
  destruct (truthy (trim (current (accumulatedTranscript w) ev))) eqn:A.
  - rewrite (result_step v t ev w T L Hnow Hearly A). cbn.
    repeat split. right. now exists (nextTimer w), (t + QUIET)%N.
  - unfold step; cbn [fst snd handle].
    rewrite (advance_early v t w Hearly).
    replace (N.max (now w) t) with t by lia.
    unfold onresult. rewrite (grow_world ev (set_now t w)).
    destruct w as [l tr sup er st acc hs ra rs tms nt nw sb ex];
      cbn in *; subst l.
    fold (current acc ev). rewrite A.
    rewrite effect_idle by reflexivity. cbn.
    repeat split. exact T.
Qed.

(** What a run of result events leaves behind when no quiet period runs
    out before the last of them. *)
Lemma results_in_time (tes : list (N * speech_event)) :
  forall w,
    one_timer w -> isListening w = true ->
    in_time (now w) (accumulatedTranscript w) (deadline_of w) tes = true ->
    let w' := run v (result_events tes) w in
    (one_timer w' /\ isListening w' = true)
    /\ deadline_of w' = rearmed (accumulatedTranscript w) (deadline_of w) tes
    /\ transcript w'
       = exposed (accumulatedTranscript w) (transcript w) (map snd tes)
    /\ accumulatedTranscript w'
       = fold_left accumulate (map snd tes) (accumulatedTranscript w)
    /\ hasSubmitted w' = hasSubmitted w /\ recActive w' = recActive w
    /\ recStopping w' = recStopping w
    /\ submitted w' = submitted w /\ expired w' = expired w.
Proof.
  induction tes as [|[t ev] tes IH]; intros w T L H.
  - cbn. repeat split; assumption.
  - cbn [in_time fst snd] in H.
    apply andb_true_iff in H. destruct H as [H H3].
    apply andb_true_iff in H. destruct H as [H1 H2].
    apply N.leb_le in H1.
    assert (Hd : match deadline_of w with
                 | Some dl => (t < dl)%N
                 | None => True
                 end)
      by (destruct (deadline_of w); [now apply N.ltb_lt | exact I]).
    destruct (result_in_time t ev w T L H1 Hd)
      as ((T1 & L1 & N1) & D1 & R1 & A1 & F1 & F2 & F3 & F4 & F5).
    cbn zeta in *.
    change (run v (result_events ((t, ev) :: tes)) w)
      with (run v (result_events tes) (step v (t, OnResult ev) w)).
    cbn [rearmed exposed map fold_left fst snd].
    generalize dependent (step v (t, OnResult ev) w). intros w1.
    intros T1 L1 N1 D1 R1 A1 F1 F2 F3 F4 F5.
    specialize (IH w1 T1 L1). rewrite N1, A1, D1 in IH.
    specialize (IH H3). cbn zeta in IH.
    rewrite R1 in IH. rewrite <- F1, <- F2, <- F3, <- F4, <- F5. exact IH.
Qed.

Lemma accumulate_app (acc : str) (ev : speech_event) :
  accumulate acc ev = acc ++ accumulate [] ev.
Proof.
  unfold accumulate. destruct (is_nil (final_text ev)); cbn;
    [now rewrite app_nil_r | reflexivity].
Qed.

Lemma accumulated_from (evs : list speech_event) :
  forall acc, fold_left accumulate evs acc = acc ++ accumulation evs.
Proof.
  unfold accumulation.
  induction evs as [|ev evs IH]; intro acc; cbn [fold_left map concat].
  - now rewrite app_nil_r.
  - now rewrite IH, (accumulate_app acc), app_assoc.
Qed.

Lemma exposed_snoc (evs : list speech_event) (ev : speech_event) :
  forall acc tr,
    exposed acc tr (evs ++ [ev])
    = let acc' := fold_left accumulate evs acc in
      if rearms acc' ev then trim (shown_text acc' ev)
      else exposed acc tr evs.
Proof.
  induction evs as [|e evs IH]; intros acc tr; cbn [app exposed fold_left].
  - reflexivity.
  - apply IH.
Qed.

Lemma in_time_app (tes1 tes2 : list (N * speech_event)) :
  forall prev acc d,
    in_time prev acc d (tes1 ++ tes2) = true ->
    in_time prev acc d tes1 = true.
Proof.
  induction tes1 as [|te tes1 IH]; intros prev acc d H; [reflexivity|].
  cbn [app in_time] in *.
  apply andb_true_iff in H. destruct H as [H H3]. rewrite H. cbn.
  now apply (IH _ _ _ H3).
Qed.

(** The quiet period runs out: the callback runs once, asks the
    recognizer to stop, and in GeneralApp and ColumbiaRex empties the
    accumulated text. *)
Lemma expiry_accumulated (t : N) (d : N) (w : world) :
  one_timer w -> deadline_of w = Some d -> (d <= t)%N ->
  accumulatedTranscript (advance v t w)
  = match v with
    | ColumbiaInline => accumulatedTranscript w
    | _ => []
    end.
Proof.
  unfold deadline_of. intros [E | (id & d' & E & _)] D Hd;
    rewrite E in D; [discriminate|]. injection D as ->.
  unfold advance. rewrite E. cbn [filter]. unfold due; cbn [snd].
  apply N.leb_le in Hd. rewrite Hd. cbn [negb fold_left].
  unfold timeoutCallback, recognition_stop.
  destruct v; cbn; destruct (recActive w); reflexivity.
Qed.

(** C3 (as the code has it): over a run of result events in which no
    quiet period runs out, an event whose text -- the accumulated text
    followed by its interim text -- is not blank cancels the pending
    timeout and arms a new one 5 seconds after its arrival, and an event
    whose text is blank leaves the pending timeout as it is.  With a
    non-empty exposed transcript, exactly one timeout is then pending;
    nothing expires or is submitted before its deadline; at the deadline
    it fires once and stops the recognizer, and the [onend] that follows
    dispatches exactly one submission, of the transcript exposed at
    expiry: no later event submits again, short of a click that starts
    a new session. *)
Theorem quiet_period_submits_once
  (tes : list (N * speech_event)) (deadline : N) (w : world) :
  one_timer w -> isListening w = true -> hasSubmitted w = false ->
  recActive w = true ->
  in_time (now w) (accumulatedTranscript w) (deadline_of w) tes = true ->
  rearmed (accumulatedTranscript w) (deadline_of w) tes = Some deadline ->
  let w' := run v (result_events tes) w in
  truthy (transcript w') = true ->
  (exists id, timers w' = [(id, deadline)] /\ submitTimeout w' = Some id)
  /\ transcript w'
     = exposed (accumulatedTranscript w) (transcript w) (map snd tes)
  /\ submitted w' = submitted w /\ expired w' = expired w
  /\ (forall t1, (t1 < deadline)%N ->
        expired (advance v t1 w') = expired w
        /\ timers (advance v t1 w') = timers w'
        /\ submitted (advance v t1 w') = submitted w)
  /\ (forall t1 t2, (deadline <= t1)%N ->
        let we := advance v t1 w' in
        expired we = S (expired w) /\ recStopping we = true
        /\ timers we = [] /\ submitted we = submitted w
        /\ submitted (step v (t2, OnEnd) we) = submitted w ++ [transcript w']
        /\ hasSubmitted (step v (t2, OnEnd) we) = true
        /\ (forall t3 e, e <> ClickMic ->
              submitted (step v (t3, e) (step v (t2, OnEnd) we))
              = submitted w ++ [transcript w'])).
Proof.
  intros T L HS R Hin Hd w' Htruthy.
  destruct (results_in_time tes w T L Hin)
    as ((T' & L') & D' & Etr & _ & Ehs & Era & Ers & Esb & Eex).
  fold w' in T', L', D', Etr, Ehs, Era, Ers, Esb, Eex.
  rewrite Hd in D'.
  assert (Etm : exists id, timers w' = [(id, deadline)]
                           /\ submitTimeout w' = Some id).
  { unfold deadline_of in D'.
    destruct T' as [E | (id & d & E & E')]; rewrite E in D'; [discriminate|].
    injection D' as ->. now exists id. }
  destruct Etm as (id & Etm & Est).
  split; [now exists id|].
  split; [exact Etr|]. split; [exact Esb|]. split; [exact Eex|].
  split.
  - intros t1 Ht1.
    rewrite (advance_early v t1 w').
    + cbn. repeat split; assumption.
    + rewrite Etm. intros tm [<-|[]]. exact Ht1.
  - intros t1 t2 Ht1 we.
    destruct (expiry v id deadline t1 w' Etm Ht1) as (X1 & X2 & X3);
      [congruence|].
    destruct (advance_keeps_react v t1 w') as (A & B & C & D & _).
    fold we in X1, X2, X3, A, B, C, D.
    assert (E1 : submitted (step v (t2, OnEnd) we)
                 = submitted w ++ [transcript w'])
      by (rewrite ended_submits; congruence).
    assert (E2 : hasSubmitted (step v (t2, OnEnd) we) = true)
      by (apply ended_marks; congruence).
    repeat split; try congruence.
    intros t3 e He.
    destruct (no_second_submission v t3 e (step v (t2, OnEnd) we) E2)
      as [E3 _]; [intro; contradiction|].
    congruence.
Qed.

End ResultRuns.

(** C3 (as stated) fails: the second event carries no text, so it does
    not re-arm the timer; the timeout armed by the first event fires at
    6000 ms, 2 seconds after the last event instead of 5, and the
    submission follows. *)
Lemma blank_event_does_not_rearm :
  let w' := Voice.run GeneralApp
              (result_events [(1000%N, interim "hello"); (4000%N, interim "")])
              started_session in
  Voice.transcript w' = lit "hello"
  /\ Voice.timers w' = [(1, 6000%N)]
  /\ Voice.expired (Voice.advance GeneralApp 6000%N w') = 1
  /\ Voice.submitted
       (Voice.step GeneralApp (6100%N, Voice.OnEnd)
          (Voice.advance GeneralApp 6000%N w'))
     = [lit "hello"].
Proof. vm_compute. repeat split; reflexivity. Qed.

Lemma quiet_period_submits_once_witness :
  let w' := Voice.run GeneralApp
              (result_events [(1000%N, phrase "what is the rule");
                              (3000%N, interim " ");
                              (4000%N, phrase "for a lost ball")])
              started_session in
  Voice.submitted
    (Voice.step GeneralApp (9500%N, Voice.OnEnd)
       (Voice.advance GeneralApp 9000%N w'))
  = Voice.submitted started_session ++ [Voice.transcript w'].
Proof.
  intro w'.
  destruct (quiet_period_submits_once GeneralApp
              [(1000%N, phrase "what is the rule");
               (3000%N, interim " ");
               (4000%N, phrase "for a lost ball")] 9000%N started_session)
    as (_ & _ & _ & _ & _ & H).
  - left; reflexivity.
  - reflexivity.
  - reflexivity.
  - reflexivity.
  - vm_compute; reflexivity.
  - vm_compute; reflexivity.
  - vm_compute; reflexivity.
  - refine (proj1 (proj2 (proj2 (proj2 (proj2 (H 9000%N 9500%N _)))))).
    vm_compute. discriminate.
Defined.

Example quiet_period_example :
  Voice.submitted
    (Voice.run GeneralApp
       (result_events [(1000%N, phrase "what is the rule");
                       (4000%N, phrase "for a lost ball")]
        ++ [(9500%N, Voice.OnEnd)]) started_session)
  = [lit "what is the rule for a lost ball"].
Proof. vm_compute. reflexivity. Qed.

(* ================================================================== *)
(** ** The exposed transcript *)
(* ================================================================== *)

Section Transcript.
Import Voice.

Lemma onresult_accumulated (ev : speech_event) (w : world) :
  accumulatedTranscript (onresult ev w) = grow (accumulatedTranscript w) ev.
Proof.
  unfold onresult. rewrite grow_world.
  destruct w as [l tr sup er st acc hs ra rs tms nt nw sb ex]; cbn.
  match goal with |- context [truthy (trim ?x)] =>
    destruct (truthy (trim x)) end; cbn; [|reflexivity].
  destruct st; reflexivity.
Qed.

Lemma onresult_transcript (ev : speech_event) (w : world) :
  transcript (onresult ev w)
  = if truthy (trim (current (accumulatedTranscript w) ev))
    then trim (current (accumulatedTranscript w) ev)
    else transcript w.
Proof.
  unfold onresult. rewrite grow_world.
  destruct w as [l tr sup er st acc hs ra rs tms nt nw sb ex]; cbn.
  fold (current acc ev).
  destruct (truthy (trim (current acc ev))); cbn; [|reflexivity].
  destruct st; reflexivity.
Qed.

(** C4 (as the code has it): over a run of result events in which no
    quiet period runs out, in a session that starts with no accumulated
    text, the accumulated text is, in arrival order, the final text of
    each event that has some followed by one space (the final results of
    one event are concatenated without a separator); after an event whose
    text -- the accumulated text followed by the interim text of this
    event alone -- is not blank the exposed transcript is that text,
    trimmed; an event whose text is blank leaves the exposed transcript
    as it was.  When the quiet period runs out, GeneralApp and
    ColumbiaRex empty the accumulated text and ColumbiaInline keeps
    it. *)
Theorem exposed_transcript (v : variant)
  (tes : list (N * speech_event)) (t : N) (ev : speech_event) (w : world) :
  accumulatedTranscript w = [] -> one_timer w -> isListening w = true ->
  in_time (now w) [] (deadline_of w) (tes ++ [(t, ev)]) = true ->
  let w0 := run v (result_events tes) w in
  let w' := run v (result_events (tes ++ [(t, ev)])) w in
  let acc := accumulation (map snd tes ++ [ev]) in
  let text := acc ++ interim_text ev in
  accumulatedTranscript w' = acc
  /\ transcript w' = (if truthy (trim text) then trim text else transcript w0)
  /\ (forall t1 d, deadline_of w' = Some d -> (d <= t1)%N ->
        accumulatedTranscript (advance v t1 w')
        = match v with
          | ColumbiaInline => acc
          | _ => []
          end).
Proof.
  intros Hacc T L Hin w0 w' acc text. subst w0 w' acc text.
  rewrite <- Hacc in Hin.
  destruct (results_in_time v _ w T L Hin)
    as ((T' & _) & _ & Etr & Eacc & _).
  destruct (results_in_time v tes w T L (in_time_app _ _ _ _ _ Hin))
    as (_ & _ & Etr0 & _).
  cbn zeta in *.
  rewrite map_app in Etr, Eacc. cbn [map snd] in Etr, Eacc.
  rewrite accumulated_from, Hacc in Eacc. cbn [app] in Eacc.
  split; [exact Eacc|]. split.
  - rewrite Etr, exposed_snoc. cbn zeta.
    rewrite accumulated_from, Hacc. cbn [app].
    unfold rearms, shown_text.
    replace (accumulate (accumulation (map snd tes)) ev)
      with (accumulation (map snd tes ++ [ev])).
    + rewrite Etr0, Hacc. reflexivity.
    + unfold accumulation at 1. rewrite map_app, concat_app.
      cbn [map concat]. rewrite app_nil_r.
      now rewrite (accumulate_app (accumulation (map snd tes))).
  - intros t1 d Hd Ht1.
    rewrite (expiry_accumulated v t1 d _ T' Hd Ht1), Eacc. reflexivity.
Qed.

End Transcript.

(** C4 (as stated) fails: an interim result is followed by an event whose
    text is empty; the exposed transcript keeps the superseded interim
    text, where the stated value is the empty string. *)
Lemma blank_event_keeps_stale_transcript :
  let evs := [interim "hello"; interim ""] in
  let w' := Voice.run GeneralApp
              (result_events [(1000%N, interim "hello"); (2000%N, interim "")])
              started_session in
  Voice.transcript w' = lit "hello"
  /\ spec_transcript evs = []
  /\ Voice.transcript w' <> spec_transcript evs.
Proof. vm_compute. repeat split. discriminate. Qed.

Lemma exposed_transcript_witness :
  Voice.transcript
    (Voice.run GeneralApp
       (result_events ([(1000%N, phrase "what is the rule")]
                       ++ [(2000%N, interim "for a")]))
       started_session)
  = lit "what is the rule for a".
Proof.
  destruct (exposed_transcript GeneralApp
              [(1000%N, phrase "what is the rule")] 2000%N (interim "for a")
              started_session) as (_ & H & _).
  - reflexivity.
  - left; reflexivity.
  - reflexivity.
  - vm_compute; reflexivity.
  - cbv zeta in H. rewrite H. vm_compute. reflexivity.
Defined.

(* ================================================================== *)
(** ** Restarting capture *)
(* ================================================================== *)

(** C5 fails in the GeneralApp source: once a session has been ended by a
    click, restarting resets the exposed transcript and the submitted
    flag, but the accumulated text is still there and is prefixed to what
    the next session hears and submits. *)
Theorem restart_keeps_accumulated_text :
  let w := Voice.run GeneralApp restarted_session (Voice.init true) in
  Voice.hasSubmitted w = false /\ Voice.transcript w = []
  /\ Voice.accumulatedTranscript w = lit "hello "
  /\ Voice.submitted
       (Voice.run GeneralApp
          [(4000, Voice.said true "world"); (9100, Voice.OnEnd)]%N w)
     = [lit "hello"; lit "hello world"].
Proof. vm_compute. repeat split; reflexivity. Qed.

(** In the ColumbiaInline source nothing ever resets the accumulated text,
    not even a quiet-period expiry. *)
Example restart_after_expiry_inline :
  Voice.submitted
    (Voice.run ColumbiaInline
       [(0, Voice.ClickMic); (100, Voice.OnStart);
        (1000, Voice.said true "hello"); (6100, Voice.OnEnd);
        (7000, Voice.ClickMic); (7100, Voice.OnStart);
        (8000, Voice.said true "world"); (13100, Voice.OnEnd)]%N
       (Voice.init true))
  = [lit "hello"; lit "hello world"].
Proof. vm_compute. reflexivity. Qed.

(** The ColumbiaRex source resets it in [onstart]. *)
Example restart_rex :
  Voice.submitted
    (Voice.run ColumbiaRex
       (restarted_session
        ++ [(4000, Voice.said true "world"); (9100, Voice.OnEnd)]%N)
       (Voice.init true))
  = [lit "hello"; lit "world"].
Proof. vm_compute. reflexivity. Qed.

(* ================================================================== *)
(** ** The request gate *)
(* ================================================================== *)

Section Gate.
Import Api.

Local Arguments N.add : simpl never.
Local Arguments N.leb : simpl never.
Local Arguments N.max : simpl never.
Local Arguments TIMEOUT : simpl never.
Local Arguments msg_timeout : simpl never.
Local Arguments msg_network : simpl never.
Local Arguments msg_failed : simpl never.
Local Arguments CLUB_ID : simpl never.

Variable v : variant.

(** While a marker is set, the gated [askQuestion] returns at once. *)
Lemma gate_rejects (q : str) (fm : bool) (w : world) :
  gated v = true -> requestInProgress w || loading w = true ->
  askQuestion v q fm w = w.
Proof.
  intros G H. unfold askQuestion. destruct v; try discriminate; now rewrite H.
Qed.

(** With both markers clear, [askQuestion] hands one body to [fetch]. *)
Lemma gate_accepts (q : str) (fm : bool) (w : world) :
  requestInProgress w = false -> loading w = false ->
  sent (askQuestion v q fm w)
  = sent w ++ [ {| b_question := q; b_club_id := CLUB_ID; b_fast_mode := fm |} ]
  /\ loading (askQuestion v q fm w) = true
  /\ pending (askQuestion v q fm w)
     = pending w
       ++ [ {| rid := nextReq w; headersReceived := false;
               abortAt := if gated v then Some (now w + TIMEOUT)%N else None |} ].
Proof.
  intros R L. unfold askQuestion, startFetch.
  destruct v; cbn; rewrite ?R, ?L; cbn; repeat split.
Qed.

Lemma gate_ok_advance (t : N) (w : world) :
  gated v = true -> gate_ok w -> gate_ok (advance v t w).
Proof.
  intros G [E H].
  destruct w as [l rs er rip pd st nr nw]; cbn in E, H; subst rip.
  destruct l; [destruct H as [f H] |]; subst pd;
    unfold advance, gate_ok, finally, catch, due; rewrite G;
    destruct v; try discriminate; gate_cases; eauto.
Qed.

Lemma gate_ok_handle (e : event) (w : world) :
  gated v = true -> gate_ok w -> gate_ok (handle v e w).
Proof.
  intros G [E H].
  destruct w as [l rs er rip pd st nr nw]; cbn in E, H; subst rip.
  destruct l; [destruct H as [f H] |]; subst pd;
    unfold gate_ok, handle, askQuestion, startFetch, finally, catch, onData,
      find, remove;
    destruct v; try discriminate; destruct e; gate_cases; eauto;
    try discriminate.
Qed.

(** In the gated sources at most one question request is in flight,
    whatever the sequence of submissions, responses and timeouts. *)
Lemma gated_one_in_flight (tes : list (N * event)) :
  gated v = true -> length (pending (run v tes init)) <= 1.
Proof.
  intro G.
  assert (H : gate_ok (run v tes init)).
  { assert (H0 : gate_ok init) by (split; reflexivity).
    revert H0. generalize init.
    induction tes as [|te tes IH]; intros w H; cbn; [exact H|].
    apply IH. unfold step. now apply gate_ok_handle, gate_ok_advance. }
  destruct H as [_ H].
  destruct (loading (run v tes init)); [destruct H as [f H]|];
    rewrite H; cbn; lia.
Qed.

(** The ColumbiaInline source hands every submission to [fetch]. *)
Lemma ungated_never_rejects (q : str) (fm : bool) (w : world) :
  sent (askQuestion ColumbiaInline q fm w)
  = sent w ++ [ {| b_question := q; b_club_id := CLUB_ID; b_fast_mode := fm |} ]
  /\ length (pending (askQuestion ColumbiaInline q fm w))
     = S (length (pending w)).
Proof.
  unfold askQuestion, startFetch. cbn. split; [reflexivity|].
  rewrite length_app. cbn. lia.
Qed.

(** C6: a submission accepted by the gate sets the in-flight marker, and
    whichever way the request ends -- the fetch rejects, the body arrives
    (success flag true or false), the body cannot be read, or the abort
    timeout fires -- the [finally] block leaves both markers clear and no
    fetch under way, so the next submission is accepted. *)
Theorem marker_cleared_on_every_exit
  (q : str) (fm : bool) (t t' : N) (data : answer) (w : world) :
  loading w = false -> requestInProgress w = false -> pending w = [] ->
  let w1 := askQuestion v q fm w in
  let r := nextReq w in
  loading w1 = true
  /\ cleared (step v (t, FetchRejects r) w1)
  /\ cleared (run v [(t, FetchResolves r); (t', BodyParsed r data)] w1)
  /\ cleared (run v [(t, FetchResolves r); (t', BodyFails r)] w1)
  /\ (gated v = true -> (now w + TIMEOUT <= t)%N -> cleared (advance v t w1))
  /\ (forall w2 q' fm', cleared w2 ->
        sent (askQuestion v q' fm' w2)
        = sent w2 ++ [ {| b_question := q'; b_club_id := CLUB_ID;
                          b_fast_mode := fm' |} ]).
Proof.
  intros L R P w1 r. subst w1 r.
  destruct w as [l rs er rip pd st nr nw]; cbn in L, R, P; subst l rip pd.
  unfold cleared.
  split; [destruct v; reflexivity|].
  split.
  { unfold step, advance, askQuestion, startFetch; cbn.
    destruct v; cbn; unfold due; cbn;
      try (destruct (N.leb (nw + TIMEOUT) t); cbn);
      repeat (rewrite Nat.eqb_refl; cbn);
      repeat split. }
  split.
  { unfold run, step, advance, askQuestion, startFetch; cbn.
    destruct v; cbn; unfold due; cbn;
      try (destruct (N.leb (nw + TIMEOUT) t); cbn);
      repeat (rewrite Nat.eqb_refl; cbn);
      unfold onData; destruct (success data); cbn;
      repeat (rewrite Nat.eqb_refl; cbn);
      repeat split. }
  split.
  { unfold run, step, advance, askQuestion, startFetch; cbn.
    destruct v; cbn; unfold due; cbn;
      try (destruct (N.leb (nw + TIMEOUT) t); cbn);
      repeat (rewrite Nat.eqb_refl; cbn);
      repeat split. }
  split.
  { intros G Ht. apply N.leb_le in Ht. cbn in Ht.
    unfold advance, askQuestion, startFetch; cbn.
    destruct v; try discriminate; cbn; unfold due; cbn; rewrite Ht; cbn;
      repeat split. }
  intros w2 q' fm' (L2 & R2 & _).
  now apply gate_accepts.
Qed.

End Gate.

Lemma marker_cleared_on_every_exit_witness :
  cleared
    (Api.run GeneralApp
       [(400%N, Api.FetchResolves 0); (450%N, Api.BodyParsed 0 club_not_found)]
       (Api.askQuestion GeneralApp (lit "what is the rule for a lost ball")
          true Api.init)).
Proof.
  refine (proj1 (proj2 (proj2
    (marker_cleared_on_every_exit GeneralApp _ true 400%N 450%N _ Api.init
       _ _ _)))); reflexivity.
Defined.

(** C2 fails in the ColumbiaInline source, whose [askQuestion] has no
    gate: both submissions reach [fetch] and two requests are in flight. *)
Theorem ungated_second_request_dispatched :
  let w := Api.run ColumbiaInline two_questions Api.init in
  map Api.b_question (Api.sent w)
  = [lit "what is the rule for a lost ball";
     lit "can I move a loose impediment"]
  /\ length (Api.pending w) = 2.
Proof. vm_compute. split; reflexivity. Qed.

(** The gated sources drop the second submission without a trace. *)
Example gated_second_request_dropped :
  Api.run GeneralApp two_questions Api.init
  = Api.set_now 100%N
      (Api.run GeneralApp [(0%N, Api.Ask (lit "what is the rule for a lost ball") true)]
         Api.init).
Proof. vm_compute. reflexivity. Qed.

(* ================================================================== *)
(** ** The bounded wait *)
(* ================================================================== *)

Section BoundedWait.
Import Api.

Local Arguments N.add : simpl never.
Local Arguments N.leb : simpl never.
Local Arguments N.max : simpl never.
Local Arguments TIMEOUT : simpl never.
Local Arguments msg_timeout : simpl never.
Local Arguments msg_network : simpl never.
Local Arguments CLUB_ID : simpl never.

(** C7 fails in the ColumbiaInline source, whose [askQuestion] arms no
    abort timeout: however long the service stays silent, the request
    stays in flight and no timeout is reported. *)
Theorem ungated_request_never_times_out (q : str) (fm : bool) (t : N) :
  let w := advance ColumbiaInline t (askQuestion ColumbiaInline q fm init) in
  loading w = true /\ error w = None /\ length (pending w) = 1.
Proof. cbn. repeat split. Qed.

(** The gated sources: a fetch that has not resolved 10 seconds after the
    submission is aborted and reported as a timeout, which is not the
    network-error message; the request is not sent again. *)
Lemma gated_timeout (v : variant) (q : str) (fm : bool) (t : N) (w : world) :
  gated v = true ->
  loading w = false -> requestInProgress w = false -> pending w = [] ->
  (now w + TIMEOUT <= t)%N ->
  let w' := advance v t (askQuestion v q fm w) in
  error w' = Some msg_timeout /\ msg_timeout <> msg_network v
  /\ loading w' = false /\ pending w' = []
  /\ sent w' = sent w ++ [ {| b_question := q; b_club_id := CLUB_ID;
                              b_fast_mode := fm |} ].
Proof.
  intros G L R P Ht.
  destruct w as [l rs er rip pd st nr nw]; cbn in L, R, P, Ht; subst l rip pd.
  apply N.leb_le in Ht.
  unfold advance, askQuestion, startFetch, due.
  destruct v; try discriminate; cbn; rewrite Ht; cbn;
    (repeat split; try reflexivity); vm_compute; discriminate.
Qed.

(** A response that arrives 10.1 seconds after the submission comes too
    late: the timeout has been reported and the response is ignored. *)
Example late_response_is_a_timeout :
  let w := run GeneralApp
             [(0%N, Ask (lit "what is the rule for a lost ball") true);
              (10100%N, FetchResolves 0)] init in
  error w = Some (lit "Request timed out") /\ loading w = false
  /\ response w = None.
Proof. vm_compute. repeat split; reflexivity. Qed.

(** Once the fetch has resolved its timeout is cleared: reading the body
    is not bounded by it. *)
Example body_read_is_not_bounded (t : N) :
  let w := advance GeneralApp t headers_received in
  loading w = true /\ error w = None.
Proof. split; reflexivity. Qed.

End BoundedWait.

(* ================================================================== *)
(** ** What a new request clears *)
(* ================================================================== *)

(** C8 fails in the gated sources (GeneralApp, ColumbiaRex): the new
    request clears the error but keeps the answer to the previous
    question; the spinner hides it while the request is in flight, and it
    is displayed again, beside the new error, when the request fails. *)
Theorem answer_not_cleared_by_new_request :
  let w1 := Api.step GeneralApp
              (5000%N, Api.Ask (lit "can I move a loose impediment") true)
              (answered GeneralApp) in
  let w2 := Api.run GeneralApp
              [(5300%N, Api.FetchResolves 1);
               (5350%N, Api.BodyParsed 1 club_not_found)] w1 in
  Api.response w1 = Some lost_ball_answer
  /\ Api.displayedAnswer w1 = None
  /\ Api.displayedAnswer w2 = Some lost_ball_answer
  /\ Api.error w2 = Some (lit "club not found").
Proof. vm_compute. repeat split; reflexivity. Qed.

(** The ColumbiaInline source clears both. *)
Example answer_cleared_inline :
  let w1 := Api.step ColumbiaInline
              (5000%N, Api.Ask (lit "can I move a loose impediment") true)
              (answered ColumbiaInline) in
  Api.response w1 = None /\ Api.error w1 = None.
Proof. vm_compute. split; reflexivity. Qed.

(** Every source clears the error when a submission is accepted; only
    ColumbiaInline clears the answer. *)
Lemma accepted_request_clears (v : variant) (q : str) (fm : bool) (w : Api.world) :
  Api.loading w = false -> Api.requestInProgress w = false ->
  Api.error (Api.askQuestion v q fm w) = None
  /\ Api.response (Api.askQuestion v q fm w)
     = if Api.gated v then Api.response w else None.
Proof.
  intros L R. unfold Api.askQuestion, Api.startFetch.
  destruct v; cbn; rewrite ?L, ?R; cbn; split; reflexivity.
Qed.

(* ================================================================== *)
(** ** Facts about string operations *)
(* ================================================================== *)

Section StringFacts.

Lemma strip_app (p s : str) : strip p (p ++ s) = Some s.
Proof.
  induction p as [|c p IH]; cbn; [reflexivity|]. now rewrite N.eqb_refl.
Qed.

Lemma strip_sound (p : str) : forall s r, strip p s = Some r -> s = p ++ r.
Proof.
  induction p as [|c p IH]; intros s r H; cbn in H.
  - now injection H as <-.
  - destruct s as [|d s]; [discriminate|].
    destruct (N.eqb c d) eqn:E; [|discriminate].
    apply N.eqb_eq in E; subst d. cbn. f_equal. now apply IH.
Qed.

Lemma startsWith_app_self (p s : str) : startsWith (p ++ s) p = true.
Proof. unfold startsWith. now rewrite strip_app. Qed.

Lemma startsWith_refl (s : str) : startsWith s s = true.
Proof. rewrite <- (app_nil_r s) at 1. apply startsWith_app_self. Qed.

Lemma startsWith_inv (s p : str) :
  startsWith s p = true -> exists r, s = p ++ r.
Proof.
  unfold startsWith. destruct (strip p s) as [r|] eqn:E; [|discriminate].
  intros _. exists r. now apply strip_sound.
Qed.

Lemma startsWith_cons (c d : char) (s p : str) :
  startsWith (c :: s) (d :: p) = N.eqb d c && startsWith s p.
Proof. unfold startsWith; cbn. now destruct (N.eqb d c). Qed.

Lemma startsWith_nil (s : str) : startsWith s [] = true.
Proof. reflexivity. Qed.

(** A prefix of [u ++ y] either is a prefix of [u] or reaches into [y]. *)
Lemma startsWith_app (u : str) :
  forall p y, startsWith (u ++ y) p = true ->
              startsWith u p = true
              \/ exists q, p = u ++ q /\ startsWith y q = true.
Proof.
  induction u as [|c u IH]; intros p y H.
  - right. now exists p.
  - destruct p as [|d p]; [now left|].
    cbn [app] in H. rewrite startsWith_cons in H.
    apply andb_true_iff in H; destruct H as [E H].
    apply N.eqb_eq in E; subst d.
    destruct (IH p y H) as [H' | (q & -> & H')].
    + left. rewrite startsWith_cons, N.eqb_refl. exact H'.
    + right. now exists q.
Qed.

Lemma startsWith_app_l (u y p : str) :
  startsWith u p = true -> startsWith (u ++ y) p = true.
Proof.
  intro H. destruct (startsWith_inv u p H) as [r ->].
  rewrite <- app_assoc. apply startsWith_app_self.
Qed.

Lemma startsWith_strip_app (a s q : str) :
  startsWith (a ++ s) (a ++ q) = startsWith s q.
Proof.
  induction a as [|c a IH]; [reflexivity|].
  cbn [app]. now rewrite startsWith_cons, N.eqb_refl.
Qed.

(** Strings that differ within their common length stay different
    whatever follows. *)
Lemma mismatch_app (q y0 x : str) :
  mismatch q y0 = true -> startsWith (y0 ++ x) q = false.
Proof.
  unfold mismatch. intro H. apply andb_true_iff in H; destruct H as [A B].
  apply negb_true_iff in A, B.
  destruct (startsWith (y0 ++ x) q) eqn:E; [|reflexivity].
  destruct (startsWith_app y0 q x E) as [H | (q' & -> & _)].
  - congruence.
  - now rewrite startsWith_app_self in A.
Qed.

Lemma splits_complete (u : str) :
  forall q, In (u, q) (splits (u ++ q)).
Proof.
  induction u as [|c u IH]; intro q.
  - destruct q; now left.
  - cbn [app splits]. right.
    apply (in_map (fun uq => (c :: fst uq, snd uq)) _ (u, q)), IH.
Qed.

Lemma includes_false (s p : str) :
  includes s p = false ->
  forall u1 u2, s = u1 ++ u2 -> startsWith u2 p = false.
Proof.
  intros H u1. revert s H.
  induction u1 as [|c u1 IH]; intros s H u2 ->.
  - destruct u2; cbn in H; apply orb_false_iff in H; tauto.
  - cbn [app includes] in H. apply orb_false_iff in H.
    now apply (IH (u1 ++ u2)).
Qed.

Lemma endsWith_inv (s p : str) :
  endsWith s p = true -> exists w, s = w ++ p.
Proof.
  unfold endsWith. intro H.
  destruct (startsWith_inv _ _ H) as [r E].
  exists (rev r).
  rewrite <- (rev_involutive s), E, rev_app_distr. now rewrite rev_involutive.
Qed.

Lemma endsWith_app_self (w p : str) : endsWith (w ++ p) p = true.
Proof. unfold endsWith. rewrite rev_app_distr. apply startsWith_app_self. Qed.

End StringFacts.

(* ================================================================== *)
(** ** The global replace of the ColumbiaRulesResponse renderer *)
(* ================================================================== *)

Section SeamReplace.
Import ColumbiaRulesResponse.

Lemma str_eqb_eq (a : str) : forall b, str_eqb a b = true -> a = b.
Proof.
  induction a as [|c a IH]; intros [|d b] H; cbn in H; try discriminate;
    [reflexivity|].
  apply andb_true_iff in H; destruct H as [E H].
  apply N.eqb_eq in E. f_equal; [exact E | now apply IH].
Qed.

Lemma replaceAllFrom_skip (p r q : str) :
  forall s, replaceAllFrom p r (length q) (q ++ s) = replaceAllFrom p r 0 s.
Proof. induction q as [|c q IH]; intro s; cbn; [reflexivity | apply IH]. Qed.

(** A match at the head is replaced, and the scan resumes after it. *)
Lemma replaceAll_match (p r s : str) :
  p <> [] -> replaceAll p r (p ++ s) = r ++ replaceAll p r s.
Proof.
  intro Hp. destruct p as [|c p]; [contradiction|].
  unfold replaceAll. cbn [app replaceAllFrom].
  change (c :: p ++ s) with ((c :: p) ++ s).
  rewrite startsWith_app_self.
  replace (length (c :: p) - 1) with (length p) by (cbn [length]; lia).
  now rewrite replaceAllFrom_skip.
Qed.

(** Text in which no match starts is copied. *)
Lemma replaceAll_pass (p r : str) (u : str) :
  forall s,
    (forall u1 u2, u = u1 ++ u2 -> u2 <> [] -> startsWith (u2 ++ s) p = false) ->
    replaceAll p r (u ++ s) = u ++ replaceAll p r s.
Proof.
  unfold replaceAll.
  induction u as [|c u IH]; intros s H; [reflexivity|].
  cbn [app replaceAllFrom].
  change (c :: u ++ s) with ((c :: u) ++ s).
  rewrite (H [] (c :: u) eq_refl) by discriminate.
  f_equal. apply IH. intros u1 u2 -> Hu2.
  now apply (H (c :: u1) u2).
Qed.

Lemma replaceAll_none (p r s : str) :
  includes s p = false -> replaceAll p r s = s.
Proof.
  intro H. rewrite <- (app_nil_r s) at 1.
  rewrite replaceAll_pass; [now rewrite app_nil_r|].
  intros u1 u2 -> _. rewrite app_nil_r.
  now apply (includes_false _ _ H u1 u2).
Qed.

(** *** Where the seam pattern can overlap the text around a line break *)

Lemma seam_tail_vs_close :
  forallb (fun uq => is_nil (fst uq) || is_nil (snd uq)
                     || mismatch (snd uq) div_close) (splits seam) = true.
Proof. vm_compute. reflexivity. Qed.

Lemma seam_vs_flex_tail :
  forallb (fun uq => is_nil (snd uq) || mismatch seam (snd uq))
    (splits div_flex) = true.
Proof. vm_compute. reflexivity. Qed.

Lemma seam_vs_br_tail :
  forallb (fun uq => is_nil (snd uq) || mismatch seam (snd uq))
    (splits BR) = true.
Proof. vm_compute. reflexivity. Qed.

Lemma seam_tail_vs_br :
  forallb (fun uq => is_nil (fst uq) || is_nil (snd uq)
                     || str_eqb (fst uq) div_close
                        && str_eqb (snd uq) (BR ++ div_flex)
                     || mismatch (snd uq) BR) (splits seam) = true.
Proof. vm_compute. reflexivity. Qed.

Lemma flex_tail_vs_br :
  forallb (fun uq => is_nil (snd uq) || mismatch (snd uq) BR)
    (splits div_flex) = true.
Proof. vm_compute. reflexivity. Qed.

Lemma is_nil_false (s : str) : s <> [] -> is_nil s = false.
Proof. destruct s; [contradiction | reflexivity]. Qed.

Lemma seam_cut_close (u q x : str) :
  seam = u ++ q -> u <> [] -> q <> [] ->
  startsWith (div_close ++ x) q = false.
Proof.
  intros E Hu Hq.
  pose proof (proj1 (forallb_forall _ _) seam_tail_vs_close (u, q)) as H.
  rewrite E in H at 1. specialize (H (splits_complete u q)). cbn [fst snd] in H.
  rewrite (is_nil_false u Hu), (is_nil_false q Hq) in H. cbn in H.
  now apply mismatch_app.
Qed.

Lemma flex_tail_no_seam (u1 u2 z : str) :
  div_flex = u1 ++ u2 -> u2 <> [] -> startsWith (u2 ++ z) seam = false.
Proof.
  intros E Hu.
  pose proof (proj1 (forallb_forall _ _) seam_vs_flex_tail (u1, u2)) as H.
  rewrite E in H at 1. specialize (H (splits_complete u1 u2)). cbn [fst snd] in H.
  rewrite (is_nil_false u2 Hu) in H. cbn in H.
  now apply mismatch_app.
Qed.

Lemma br_tail_no_seam (u1 u2 z : str) :
  BR = u1 ++ u2 -> u2 <> [] -> startsWith (u2 ++ z) seam = false.
Proof.
  intros E Hu.
  pose proof (proj1 (forallb_forall _ _) seam_vs_br_tail (u1, u2)) as H.
  rewrite E in H at 1. specialize (H (splits_complete u1 u2)). cbn [fst snd] in H.
  rewrite (is_nil_false u2 Hu) in H. cbn in H.
  now apply mismatch_app.
Qed.

Lemma seam_cut_br (u q x : str) :
  seam = u ++ q -> u <> [] -> q <> [] ->
  startsWith (BR ++ x) q = true ->
  u = div_close /\ q = BR ++ div_flex.
Proof.
  intros E Hu Hq Hs.
  pose proof (proj1 (forallb_forall _ _) seam_tail_vs_br (u, q)) as H.
  rewrite E in H at 1. specialize (H (splits_complete u q)). cbn [fst snd] in H.
  rewrite (is_nil_false u Hu), (is_nil_false q Hq) in H. cbn [orb] in H.
  apply orb_true_iff in H. destruct H as [H | H].
  - apply andb_true_iff in H. destruct H as [H1 H2].
    split; now apply str_eqb_eq.
  - rewrite (mismatch_app q BR x H) in Hs. discriminate.
Qed.

Lemma flex_cut_br (u q x : str) :
  div_flex = u ++ q -> q <> [] -> startsWith (BR ++ x) q = false.
Proof.
  intros E Hq.
  pose proof (proj1 (forallb_forall _ _) flex_tail_vs_br (u, q)) as H.
  rewrite E in H at 1. specialize (H (splits_complete u q)). cbn [fst snd] in H.
  rewrite (is_nil_false q Hq) in H. cbn in H.
  now apply mismatch_app.
Qed.

Lemma join_head (l : str) (rest : list str) :
  exists tl, join BR (map formatLine (l :: rest)) = formatLine l ++ tl
             /\ (tl = [] \/ exists x, tl = BR ++ x).
Proof.
  destruct rest as [|l' rest]; cbn [map join].
  - exists []. split; [now rewrite app_nil_r | now left].
  - eexists. split; [reflexivity|]. right. eexists. reflexivity.
Qed.

(** No match of the seam pattern starts inside a line that ends in the
    closing tag and is followed by a line break and the opening tag. *)
Lemma no_seam_before_joint (w z : str) :
  includes (w ++ div_close) seam = false ->
  forall u1 u2, w = u1 ++ u2 -> u2 <> [] ->
                startsWith (u2 ++ seam ++ z) seam = false.
Proof.
  intros Hfree u1 u2 -> Hu2.
  destruct (startsWith (u2 ++ seam ++ z) seam) eqn:E; [|reflexivity].
  assert (Hno : startsWith (u2 ++ div_close) seam = false).
  { apply (includes_false _ _ Hfree u1). now rewrite app_assoc. }
  unfold seam at 1 in E. rewrite <- app_assoc in E.
  destruct (startsWith_app u2 _ _ E) as [H | (q & Eq & H)].
  - now rewrite (startsWith_app_l u2 div_close seam H) in Hno.
  - destruct q as [|c q].
    + rewrite app_nil_r in Eq. rewrite <- Eq in Hno.
      now rewrite startsWith_app_self in Hno.
    + rewrite (seam_cut_close u2 (c :: q) _ Eq Hu2) in H by discriminate.
      discriminate.
Qed.

(** No match starts in a line or in the line break after it, unless the
    line ends in the closing tag and the next begins with the opening tag. *)
Lemma no_seam_across_break (l l' : str) (rest : list str) :
  includes (formatLine l) seam = false ->
  seam_joint l l' = false ->
  forall u1 u2, formatLine l ++ BR = u1 ++ u2 -> u2 <> [] ->
    startsWith (u2 ++ join BR (map formatLine (l' :: rest))) seam = false.
Proof.
  intros Hfree Hjoint u1 u2 E Hu2.
  destruct (join_head l' rest) as (tl & -> & Htl).
  apply app_eq_app in E. destruct E as (k & [[E1 E2] | [E1 E2]]).
  2:{ now apply (br_tail_no_seam k). }
  subst u2.
  destruct k as [|c k]; [now apply (br_tail_no_seam [])|].
  rewrite <- app_assoc.
  match goal with |- ?g = false => destruct g eqn:E end; [|reflexivity].
  exfalso.
  destruct (startsWith_app (c :: k) _ _ E) as [H | (q & Eq & H)].
  { now rewrite (includes_false _ _ Hfree u1 (c :: k) E1) in H. }
  destruct q as [|d q].
  { rewrite app_nil_r in Eq.
    pose proof (includes_false _ _ Hfree u1 (c :: k) E1) as H'.
    rewrite <- Eq in H'. now rewrite startsWith_refl in H'. }
  destruct (seam_cut_br (c :: k) (d :: q) (formatLine l' ++ tl) Eq)
    as [Ek Eq']; [discriminate | discriminate | exact H |].
  rewrite Eq', startsWith_strip_app in H.
  unfold seam_joint in Hjoint.
  rewrite E1, Ek, endsWith_app_self in Hjoint. cbn [andb] in Hjoint.
  destruct (startsWith_app (formatLine l') _ _ H) as [H1 | (q' & Eq2 & H2)].
  { congruence. }
  destruct q' as [|d' q'].
  { rewrite app_nil_r in Eq2. rewrite <- Eq2 in Hjoint.
    now rewrite startsWith_refl in Hjoint. }
  destruct Htl as [-> | (x & ->)]; [discriminate|].
  rewrite (flex_cut_br (formatLine l') (d' :: q') x Eq2) in H2 by discriminate.
  discriminate.
Qed.

(** What the final replace makes of the joined lines: it deletes exactly
    the line breaks that stand in a seam joint. *)
Lemma seam_replace_lines (ls : list str) :
  seam_free ls = true ->
  replaceAll seam seam_joined (join BR (map formatLine ls))
  = interleave (fun l l' => if seam_joint l l' then [] else BR) formatLine ls.
Proof.
  induction ls as [|l ls IH]; intro Hfree; [reflexivity|].
  cbn [seam_free forallb] in Hfree. apply andb_true_iff in Hfree.
  destruct Hfree as [Hl Hrest]. apply negb_true_iff in Hl.
  specialize (IH Hrest).
  destruct ls as [|l' rest].
  - cbn [map join interleave]. rewrite app_nil_r.
    now apply replaceAll_none.
  - cbn [interleave]. cbn [interleave] in IH. rewrite <- IH.
    change (join BR (map formatLine (l :: l' :: rest)))
      with (formatLine l ++ BR ++ join BR (map formatLine (l' :: rest))).
    destruct (seam_joint l l') eqn:Hj.
    + unfold seam_joint in Hj. apply andb_true_iff in Hj.
      destruct Hj as [Hend Hstart].
      destruct (endsWith_inv _ _ Hend) as [w Ew].
      destruct (join_head l' rest) as (tl & -> & _).
      destruct (startsWith_inv _ _ Hstart) as [z' Ez].
      rewrite Ew, Ez. rewrite Ew in Hl.
      replace ((w ++ div_close) ++ BR ++ (div_flex ++ z') ++ tl)
        with (w ++ seam ++ (z' ++ tl))
        by (unfold seam; now rewrite <- !app_assoc).
      rewrite (replaceAll_pass seam seam_joined w)
        by now apply no_seam_before_joint.
      rewrite replaceAll_match by discriminate.
      rewrite <- (app_assoc div_flex z' tl).
      rewrite (replaceAll_pass seam seam_joined div_flex)
        by (intros u1 u2 E Hu2; now apply (flex_tail_no_seam u1)).
      unfold seam_joined. cbn [app]. now rewrite <- !app_assoc.
    + rewrite (app_assoc (formatLine l) BR).
      rewrite (replaceAll_pass seam seam_joined (formatLine l ++ BR))
        by now apply no_seam_across_break.
      now rewrite <- app_assoc.
Qed.

End SeamReplace.

(* ================================================================== *)
(** ** Rendering of the answer text *)
(* ================================================================== *)

Section Rendering.
Import ColumbiaRulesResponse.

Lemma split_nl_cons (s : str) : exists l ls, split_nl s = l :: ls.
Proof.
  induction s as [|c s (l & ls & IH)]; cbn.
  - now exists [], [].
  - destruct (N.eqb c nl); [now exists [], (split_nl s)|].
    rewrite IH. now exists (c :: l), ls.
Qed.

Lemma replaceAllChar_app (c : char) (r x y : str) :
  replaceAllChar c r (x ++ y) = replaceAllChar c r x ++ replaceAllChar c r y.
Proof. apply flat_map_app. Qed.

Lemma replaceAllChar_cons (c : char) (r : str) (x : char) (s : str) :
  replaceAllChar c r (x :: s)
  = (if N.eqb x c then r else [x]) ++ replaceAllChar c r s.
Proof. reflexivity. Qed.

Lemma replaceAllChar_id (c : char) (r m : str) :
  Forall (fun x => x <> c) m -> replaceAllChar c r m = m.
Proof.
  induction 1 as [|x m Hx _ IH]; cbn; [reflexivity|].
  apply N.eqb_neq in Hx. rewrite Hx. cbn. f_equal. exact IH.
Qed.

(** [RulesResponse] line by line: every line break becomes a break tag,
    every bullet an entity, and nothing else happens. *)
Lemma general_by_lines (answer : str) :
  RulesResponse.formatAnswer answer = join BR (map bull (split_nl answer)).
Proof.
  unfold RulesResponse.formatAnswer. fold (bull (replaceAllChar nl BR answer)).
  induction answer as [|c a IH]; [reflexivity|].
  rewrite (replaceAllChar_cons nl). cbn [split_nl].
  destruct (split_nl_cons a) as (l & ls & E). rewrite E in IH |- *.
  unfold bull at 1. rewrite replaceAllChar_app. fold (bull (replaceAllChar nl BR a)).
  rewrite IH.
  destruct (N.eqb c nl) eqn:Ec.
  - reflexivity.
  - cbn [map join].
    change (replaceAllChar bullet (lit "&bull;") [c])
      with ((if N.eqb c bullet then lit "&bull;" else [c]) ++ []).
    rewrite app_nil_r.
    change (bull (c :: l))
      with ((if N.eqb c bullet then lit "&bull;" else [c]) ++ bull l).
    destruct (map bull ls); now rewrite <- ?app_assoc.
Qed.

Lemma bullet_line_shape (l : str) :
  isBulletLine l = true ->
  endsWith (formatLine l) div_close = true
  /\ startsWith (formatLine l) div_flex = true.
Proof.
  intro H. unfold formatLine. rewrite H. split.
  - change item_close with (lit "</span>" ++ div_close).
    rewrite !app_assoc. apply endsWith_app_self.
  - change item_open
      with (div_flex
            ++ lit "; margin-bottom: 2px; padding-left: 0;" ++ [dq]
            ++ lit "><span style=" ++ [dq] ++ lit "margin-right: 8px;" ++ [dq]
            ++ lit ">&bull;</span><span>").
    rewrite <- app_assoc. apply startsWith_app_self.
Qed.

Lemma joints_as_spec (ls : list str) :
  joints_ok ls = true ->
  interleave (fun l l' => if seam_joint l l' then [] else BR) formatLine ls
  = spec_render isBulletLine formatLine ls.
Proof.
  unfold spec_render.
  induction ls as [|l ls IH]; intro H; [reflexivity|].
  destruct ls as [|l' rest]; [reflexivity|].
  cbn [joints_ok] in H. apply andb_true_iff in H. destruct H as [H Hrest].
  cbn [interleave]. cbn [interleave] in IH. rewrite (IH Hrest).
  f_equal. f_equal.
  destruct (isBulletLine l && isBulletLine l') eqn:B.
  - apply andb_true_iff in B. destruct B as [B1 B2].
    unfold seam_joint.
    rewrite (proj1 (bullet_line_shape l B1)), (proj2 (bullet_line_shape l' B2)).
    reflexivity.
  - cbn [orb] in H. apply negb_true_iff in H. now rewrite H.
Qed.

(** C9 (as the code has it).  [ColumbiaRulesResponse] splits the answer
    into lines, renders each line whose trimmed text begins with the
    bullet marker as a bullet item, joins adjacent bullet items without a
    line break and separates all other adjacent lines by one -- for every
    answer in which only bullet items meet in a seam and no line holds the
    seam pattern itself.  [RulesResponse] does not single out bullet
    lines: it separates all lines by a line break and writes each bullet
    as an entity. *)
Theorem answer_rendering (answer : str) :
  (seam_safe (split_nl answer) = true ->
   ColumbiaRulesResponse.formatAnswer answer
   = spec_render isBulletLine formatLine (split_nl answer))
  /\ RulesResponse.formatAnswer answer = join BR (map bull (split_nl answer)).
Proof.
  split; [|apply general_by_lines].
  unfold seam_safe. intro H. apply andb_true_iff in H. destruct H as [F J].
  unfold ColumbiaRulesResponse.formatAnswer, joinLines.
  rewrite (seam_replace_lines _ F). now apply joints_as_spec.
Qed.

End Rendering.

(** C9 (as stated) fails for [RulesResponse]: on the example of the spec
    the two bullet lines come out separated by a line break. *)
Lemma general_breaks_between_bullets :
  RulesResponse.formatAnswer example_answer
  = lit "line one<br>&bull; item a<br>&bull; item b<br>line two"
  /\ spec_render ColumbiaRulesResponse.isBulletLine bull (split_nl example_answer)
     = lit "line one<br>&bull; item a&bull; item b<br>line two"
  /\ RulesResponse.formatAnswer example_answer
     <> spec_render ColumbiaRulesResponse.isBulletLine bull
          (split_nl example_answer).
Proof. vm_compute. repeat split. discriminate. Qed.

Lemma answer_rendering_witness :
  ColumbiaRulesResponse.formatAnswer example_answer
  = spec_render ColumbiaRulesResponse.isBulletLine ColumbiaRulesResponse.formatLine
      (split_nl example_answer).
Proof.
  apply (proj1 (answer_rendering example_answer)).
  vm_compute. reflexivity.
Defined.

(* ================================================================== *)
(** ** Markup in the answer text *)
(* ================================================================== *)

Section Markup.
Import ColumbiaRulesResponse.

Lemma contains_trans (s t m : str) :
  contains s t -> contains t m -> contains s m.
Proof.
  intros (x & y & ->) (x' & y' & ->).
  exists (x ++ x'), (y' ++ y). now rewrite <- !app_assoc.
Qed.

Lemma contains_app_l (a s m : str) : contains s m -> contains (a ++ s) m.
Proof. intros (x & y & ->). exists (a ++ x), y. now rewrite <- app_assoc. Qed.

Lemma contains_app_r (s b m : str) : contains s m -> contains (s ++ b) m.
Proof. intros (x & y & ->). exists x, (y ++ b). now rewrite <- !app_assoc. Qed.

Lemma split_nl_line (m : str) :
  Forall (fun c => c <> nl) m -> split_nl m = [m].
Proof.
  induction 1 as [|c m Hc _ IH]; [reflexivity|].
  cbn. apply N.eqb_neq in Hc. now rewrite Hc, IH.
Qed.

(** Splitting a concatenation: the last line of the first part and the
    first line of the second part become one line. *)
Lemma split_nl_app (x y : str) :
  exists xs xl yf ys,
    split_nl x = xs ++ [xl] /\ split_nl y = yf :: ys
    /\ split_nl (x ++ y) = xs ++ [xl ++ yf] ++ ys.
Proof.
  destruct (split_nl_cons y) as (yf & ys & Ey).
  induction x as [|c x (xs & xl & yf' & ys' & E1 & E2 & E3)].
  - exists [], [], yf, ys. cbn. now rewrite Ey.
  - rewrite Ey in E2. injection E2 as <- <-.
    cbn [app split_nl]. destruct (N.eqb c nl).
    + exists ([] :: xs), xl, yf, ys. rewrite E1, E3. now repeat split.
    + rewrite E1, E3. destruct xs as [|a xs]; cbn [app].
      * exists [], (c :: xl), yf, ys. now repeat split.
      * exists ((c :: a) :: xs), xl, yf, ys. now repeat split.
Qed.

(** A part of the answer that holds no line break lies within one line. *)
Lemma markup_in_a_line (answer m : str) :
  contains answer m -> Forall (fun c => c <> nl) m ->
  exists ls1 a b ls2, split_nl answer = ls1 ++ (a ++ m ++ b) :: ls2.
Proof.
  intros (x & y & ->) Hm.
  destruct (split_nl_app x (m ++ y)) as (xs & xl & yf & ys & E1 & E2 & E3).
  destruct (split_nl_app m y) as (ms & ml & yf' & ys' & F1 & F2 & F3).
  rewrite (split_nl_line m Hm) in F1.
  assert (ms = [] /\ ml = m) as [-> ->].
  { destruct ms as [|a [|b ms]]; cbn in F1; try discriminate.
    injection F1 as ->. now split. }
  rewrite F3 in E2. cbn [app] in E2. injection E2 as <- <-.
  exists xs, xl, yf', ys'. exact E3.
Qed.

Lemma replaceFirst_pass (m : str) :
  Forall (fun c => c <> bullet) m ->
  forall b, replaceFirst marker [] (m ++ b) = m ++ replaceFirst marker [] b.
Proof.
  induction 1 as [|c m Hc _ IH]; intro b; [reflexivity|].
  cbn [app replaceFirst strip marker].
  apply not_eq_sym, N.eqb_neq in Hc. rewrite Hc. f_equal. apply IH.
Qed.

(** Removing the first bullet marker of a line leaves its markup alone. *)
Lemma replaceFirst_keeps (m' b : str) :
  Forall (fun c => c <> bullet) (lt :: m') ->
  forall a, contains (replaceFirst marker [] (a ++ (lt :: m') ++ b)) (lt :: m').
Proof.
  intros Hm a. induction a as [|c a IH].
  - cbn [app]. change (lt :: m' ++ b) with ((lt :: m') ++ b).
    rewrite (replaceFirst_pass _ Hm). now exists [], (replaceFirst marker [] b).
  - cbn [app replaceFirst].
    match goal with |- context [strip marker ?s] =>
      destruct (strip marker s) as [rest|] eqn:E end.
    + cbn [app]. apply strip_sound in E. cbn [marker app] in E.
      injection E as _ E.
      destruct a as [|d a]; cbn [app] in E.
      * discriminate.
      * injection E as _ <-. now exists a, b.
    + apply (contains_app_l [c]). exact IH.
Qed.

Lemma formatLine_keeps (a m' b : str) :
  Forall (fun c => c <> bullet) (lt :: m') ->
  contains (formatLine (a ++ (lt :: m') ++ b)) (lt :: m').
Proof.
  intro Hm. unfold formatLine.
  destruct (isBulletLine _).
  - apply contains_app_l, contains_app_r. now apply replaceFirst_keeps.
  - now exists a, b.
Qed.

Lemma interleave_contains (sep : str -> str -> str) (fmt : str -> str)
  (ls1 : list str) (l : str) (ls2 : list str) :
  contains (interleave sep fmt (ls1 ++ l :: ls2)) (fmt l).
Proof.
  induction ls1 as [|k ls1 IH]; cbn [app interleave].
  - exists [].
    eexists. cbn [app]. reflexivity.
  - destruct (ls1 ++ l :: ls2) as [|k' rest] eqn:E.
    + destruct ls1; discriminate.
    + now apply contains_app_l, contains_app_l.
Qed.

(** C10 (as the code has it): markup in the answer -- a part that opens
    with an angle bracket and holds no line break and no bullet -- is
    found verbatim in what [RulesResponse] hands to
    [dangerouslySetInnerHTML], for every answer; and in what
    [ColumbiaRulesResponse] hands to it, for every answer whose formatted
    lines do not hold the seam pattern, from which the final replace
    deletes the break tag. *)
Theorem markup_inserted_verbatim (answer m : str) :
  contains answer m -> markup m ->
  contains (RulesResponse.formatAnswer answer) m
  /\ (seam_free (split_nl answer) = true ->
      contains (ColumbiaRulesResponse.formatAnswer answer) m).
Proof.
  intros Hin ((m' & ->) & Hm).
  assert (Hnl : Forall (fun c => c <> nl) (lt :: m'))
    by (eapply Forall_impl; [|exact Hm]; cbn; tauto).
  assert (Hbu : Forall (fun c => c <> bullet) (lt :: m'))
    by (eapply Forall_impl; [|exact Hm]; cbn; tauto).
  split.
  - destruct Hin as (x & y & ->).
    unfold RulesResponse.formatAnswer.
    rewrite !replaceAllChar_app.
    rewrite (replaceAllChar_id nl BR _ Hnl), (replaceAllChar_id bullet _ _ Hbu).
    eexists _, _. reflexivity.
  - intro Hfree.
    unfold ColumbiaRulesResponse.formatAnswer, joinLines.
    rewrite (seam_replace_lines _ Hfree).
    destruct (markup_in_a_line _ _ Hin Hnl) as (ls1 & a & b & ls2 & ->).
    eapply contains_trans; [apply interleave_contains|].
    now apply formatLine_keeps.
Qed.

End Markup.

(** C10 (as stated) fails for [ColumbiaRulesResponse]: when the answer is
    the seam pattern itself, its break tag is not in the rendered text. *)
Lemma seam_markup_is_rewritten :
  markup BR /\ contains ColumbiaRulesResponse.seam BR
  /\ ColumbiaRulesResponse.formatAnswer ColumbiaRulesResponse.seam
     = ColumbiaRulesResponse.seam_joined
  /\ ~ contains (ColumbiaRulesResponse.formatAnswer ColumbiaRulesResponse.seam) BR.
Proof.
  split; [split; [now exists (lit "br>") | repeat constructor; discriminate]|].
  split; [exists ColumbiaRulesResponse.div_close, ColumbiaRulesResponse.div_flex;
          reflexivity|].
  split; [vm_compute; reflexivity|].
  intros (x & y & E).
  assert (H : includes (ColumbiaRulesResponse.formatAnswer
                          ColumbiaRulesResponse.seam) BR = false)
    by (vm_compute; reflexivity).
  pose proof (includes_false _ _ H x (BR ++ y) E) as H'.
  now rewrite startsWith_app_self in H'.
Qed.

Lemma markup_inserted_verbatim_witness :
  contains
    (RulesResponse.formatAnswer (lit "Rule 18.2 <b>applies</b>" ++ [nl] ++ lit "here"))
    (lit "<b>").
Proof.
  refine (proj1 (markup_inserted_verbatim
                   (lit "Rule 18.2 <b>applies</b>" ++ [nl] ++ lit "here")
                   (lit "<b>") _ _)).
  - exists (lit "Rule 18.2 "), (lit "applies</b>" ++ [nl] ++ lit "here").
    reflexivity.
  - split; [now exists (lit "b>")|].
    repeat constructor; discriminate.
Defined.

(* ================================================================== *)
(** ** Trimming *)
(* ================================================================== *)

Arguments JS.is_ws : simpl never.
Arguments blank : simpl never.

Section TrimFacts.

Lemma trimStart_head (s : str) :
  forall c r, trimStart s = c :: r -> is_ws c = false.
Proof.
  induction s as [|d s IH]; intros c r H; cbn in H; [discriminate|].
  destruct (is_ws d) eqn:E; [now apply (IH c r)|].
  now injection H as <- _.
Qed.

Lemma trimStart_idem (s : str) : trimStart (trimStart s) = trimStart s.
Proof.
  induction s as [|d s IH]; [reflexivity|]. cbn.
  destruct (is_ws d) eqn:E; [exact IH|]. cbn. now rewrite E.
Qed.

Lemma trimStart_snoc (x : str) (c : char) :
  is_ws c = false -> trimStart (x ++ [c]) = trimStart x ++ [c].
Proof.
  intro Hc. induction x as [|d x IH]; cbn; [now rewrite Hc|].
  now destruct (is_ws d).
Qed.

Lemma trimStart_nil_iff (s : str) : trimStart s = [] <-> blank s = true.
Proof.
  unfold blank. induction s as [|d s IH]; cbn; [tauto|].
  destruct (is_ws d); cbn; [exact IH|]. split; discriminate.
Qed.

Lemma clean_trim (s : str) : clean (trim s).
Proof.
  unfold clean, trim, trimEnd. rewrite rev_involutive, trimStart_idem.
  split; [|reflexivity].
  destruct (trimStart s) as [|c a] eqn:Ea; [reflexivity|].
  pose proof (trimStart_head s c a Ea) as Hc.
  cbn [rev]. rewrite (trimStart_snoc _ c Hc), rev_app_distr. cbn.
  now rewrite Hc.
Qed.

Lemma trim_clean (s : str) : clean s -> trim s = s.
Proof.
  intros [A B]. unfold trim, trimEnd. rewrite A, B. apply rev_involutive.
Qed.

Lemma trim_idem (s : str) : trim (trim s) = trim s.
Proof. apply trim_clean, clean_trim. Qed.

Lemma trim_nil_iff (s : str) : trim s = [] <-> blank s = true.
Proof.
  rewrite <- trimStart_nil_iff. unfold trim, trimEnd. split.
  - intro H. destruct (trimStart s) as [|c a] eqn:Ea; [reflexivity|].
    pose proof (trimStart_head s c a Ea) as Hc.
    cbn [rev] in H. rewrite (trimStart_snoc _ c Hc), rev_app_distr in H.
    discriminate.
  - intros ->. reflexivity.
Qed.

Lemma truthy_trim_blank (s : str) : truthy (trim s) = negb (blank s).
Proof.
  destruct (blank s) eqn:B.
  - apply trim_nil_iff in B. now rewrite B.
  - destruct (trim s) eqn:E; [|reflexivity].
    apply trim_nil_iff in E. congruence.
Qed.

Lemma blank_app (a b : str) : blank (a ++ b) = blank a && blank b.
Proof. apply forallb_app. Qed.

End TrimFacts.

(* ================================================================== *)
(** ** Voice capture over arbitrary event sequences *)
(* ================================================================== *)

Section VoiceTraces.
Import Voice.

Variable v : variant.

Lemma handle_submitted (e : event) (w : world) :
  submitted (handle v e w) = submitted w.
Proof.
  destruct e; cbn [handle];
    unfold stopListening, handleStartListening, startListening,
      recognition_stop, recognition_start, onstart, onresult, onend,
      platform_end, onerror, setTimeout, clearTimeout;
    destruct v; cbn; crush_handler.
Qed.

Lemma handle_hasSubmitted (e : event) (w : world) :
  e <> ClickMic -> hasSubmitted (handle v e w) = hasSubmitted w.
Proof.
  intro He. destruct e; try contradiction; cbn [handle];
    unfold onstart, onresult, onend, platform_end, onerror, setTimeout,
      clearTimeout;
    destruct v; cbn; crush_handler.
Qed.

(** Every handler leaves the exposed transcript alone, empties it, or
    sets it to a trimmed text. *)
Lemma handle_transcript (e : event) (w : world) :
  transcript (handle v e w) = transcript w
  \/ transcript (handle v e w) = []
  \/ exists x, transcript (handle v e w) = trim x.
Proof.
  destruct e; cbn [handle].
  - unfold stopListening, handleStartListening, startListening,
      recognition_stop, recognition_start.
    destruct v; cbn; crush_handler; auto.
  - left. unfold onstart. destruct v; reflexivity.
  - rewrite onresult_transcript.
    destruct (truthy _); [right; right; eauto | now left].
  - left. apply onend_fields.
  - left. reflexivity.
Qed.

Lemma step_clean (te : N * event) (w : world) :
  clean (transcript w) ->
  Forall (fun q => q <> [] /\ trim q = q) (submitted w) ->
  clean (transcript (step v te w))
  /\ Forall (fun q => q <> [] /\ trim q = q) (submitted (step v te w)).
Proof.
  intros C F. unfold step.
  destruct (advance_keeps_react v (fst te) w) as (_ & B & _ & D & _).
  pose proof (handle_submitted (snd te) (advance v (fst te) w)) as S.
  assert (C' : clean (transcript (handle v (snd te) (advance v (fst te) w)))).
  { destruct (handle_transcript (snd te) (advance v (fst te) w))
      as [E | [E | [x E]]]; rewrite E.
    - now rewrite B.
    - split; reflexivity.
    - apply clean_trim. }
  generalize dependent (handle v (snd te) (advance v (fst te) w)).
  intros w1 S C'. unfold submitEffect.
  destruct (truthy (transcript w1) && negb (isListening w1)
            && negb (hasSubmitted w1)) eqn:G; cbn.
  - split; [exact C'|]. rewrite S, D. apply Forall_app. split; [exact F|].
    constructor; [|constructor].
    apply andb_true_iff in G. destruct G as [G _].
    apply andb_true_iff in G. destruct G as [G _].
    split; [now destruct (transcript w1) | now apply trim_clean].
  - split; [exact C'|]. now rewrite S, D.
Qed.

(** X1.  Whatever is handed to [onTranscript] -- in any sequence of
    clicks, recognition events and expiries, in every source -- is a
    non-empty text without whitespace at either end. *)
Theorem submitted_transcripts_trimmed
  (supported : bool) (tes : list (N * event)) :
  Forall (fun q => q <> [] /\ trim q = q)
    (submitted (run v tes (init supported))).
Proof.
  assert (H : clean (transcript (init supported))
              /\ Forall (fun q => q <> [] /\ trim q = q)
                   (submitted (init supported)))
    by (split; [split; reflexivity | constructor]).
  revert H. generalize (init supported).
  induction tes as [|te tes IH]; intros w [C F]; cbn; [exact F|].
  apply IH. now apply step_clean.
Qed.

(** X3.  In every state the hook can reach at most one timeout is
    pending, and it is the one the [submitTimeout] variable holds. *)
Theorem pending_timeout_is_unique (supported : bool) (tes : list (N * event)) :
  let w := run v tes (init supported) in
  length (timers w) <= 1
  /\ forall tm, In tm (timers w) -> submitTimeout w = Some (fst tm).
Proof.
  intro w.
  destruct (one_timer_run v tes (init supported)) as [E | (id & d & E & E')];
    [now left | |]; fold w in E; rewrite E.
  - split; [cbn; lia | intros tm []].
  - fold w in E'. split; [cbn; lia|]. intros tm [<-|[]]. exact E'.
Qed.

(** X4.  In the ColumbiaInline source the end of capture cancels the
    pending timeout: after [onend], in any reachable state, nothing is
    left to expire, however long one waits. *)
Theorem inline_end_cancels_timeout
  (supported : bool) (tes : list (N * event)) (t t' : N) :
  let w := run ColumbiaInline (tes ++ [(t, OnEnd)]) (init supported) in
  timers w = [] /\ expired (advance ColumbiaInline t' w) = expired w.
Proof.
  intro w.
  assert (E : timers w = []).
  { subst w. unfold run. rewrite fold_left_app. cbn [fold_left].
    fold (run ColumbiaInline tes (init supported)).
    pose proof (one_timer_run ColumbiaInline tes (init supported)
                  ltac:(now left)) as T.
    apply (one_timer_advance ColumbiaInline t) in T.
    unfold step; cbn [fst snd handle].
    generalize dependent (advance ColumbiaInline t
                            (run ColumbiaInline tes (init supported))).
    intros w1 T.
    assert (E : timers (onend ColumbiaInline (platform_end w1)) = []).
    { unfold onend, platform_end.
      cbn [submitTimeout set_isListening set_recStopping set_recActive].
      destruct (submitTimeout w1) as [id|] eqn:Est.
      - pose proof (one_timer_cleared id w1 T Est) as C.
        unfold clearTimeout in *; cbn in *. exact C.
      - destruct T as [E | (id & d & E & E')]; [exact E | congruence]. }
    unfold submitEffect. destruct (_ && _ && _); cbn; exact E. }
  split; [exact E|].
  rewrite (advance_early ColumbiaInline t' w); [reflexivity|].
  rewrite E. intros tm [].
Qed.

(** X5.  A click on the microphone while the recognizer is still running
    although the hook is not listening (a second click before [onstart],
    or a click after an error): [start()] throws; GeneralApp and
    ColumbiaRex report the failure to start, ColumbiaInline lets the
    exception escape and reports nothing; in every source the recognizer
    keeps running, the exposed transcript is emptied and the submitted
    flag reset. *)
Theorem start_while_running (w : world) :
  isSupported w = true -> isListening w = false -> recActive w = true ->
  let w' := handle v ClickMic w in
  error w' = (match v with
              | ColumbiaInline => None
              | _ => Some (lit "Failed to start voice recognition")
              end)
  /\ recActive w' = true /\ isListening w' = false
  /\ transcript w' = [] /\ hasSubmitted w' = false
  /\ timers w' = timers w /\ submitted w' = submitted w.
Proof.
  intros S L R. cbn [handle]. rewrite L.
  unfold handleStartListening, startListening, recognition_start.
  cbn. rewrite S, L, R. cbn.
  destruct v; cbn; repeat split; assumption.
Qed.

Lemma silent_step (te : N * event) (w : world) :
  silent [te] = true ->
  transcript w = [] -> submitted w = [] -> timers w = [] ->
  blank (accumulatedTranscript w) = true ->
  let w' := step v te w in
  transcript w' = [] /\ submitted w' = [] /\ timers w' = []
  /\ blank (accumulatedTranscript w') = true.
Proof.
  intros Hs T Sb Tm B. cbn zeta. unfold step.
  rewrite (advance_early v (fst te) w) by (rewrite Tm; intros tm []).
  unfold silent in Hs. cbn [forallb] in Hs. rewrite andb_true_r in Hs.
  assert (H : let w1 := handle v (snd te) (set_now (N.max (now w) (fst te)) w) in
              transcript w1 = [] /\ submitted w1 = [] /\ timers w1 = []
              /\ blank (accumulatedTranscript w1) = true).
  { destruct w as [l tr sup er st acc hs ra rs tms nt nw sb ex].
    cbn in T, Sb, Tm, B. subst tr sb tms.
    destruct (snd te) as [| |ev| |e]; cbn [handle].
    - unfold stopListening, handleStartListening, startListening,
        recognition_stop, recognition_start.
      destruct v; cbn; crush_handler; cbn; repeat split; assumption.
    - unfold onstart. destruct v; cbn; repeat split; assumption.
    - apply andb_true_iff in Hs. destruct Hs as [Hf Hi].
      unfold onresult. rewrite grow_world. cbn.
      assert (Bg : blank (grow acc ev) = true).
      { unfold grow. destruct (truthy _); [|exact B].
        rewrite !blank_app, B, Hf. reflexivity. }
      rewrite truthy_trim_blank, blank_app, Bg, Hi. cbn.
      repeat split; assumption.
    - unfold onend, platform_end, clearTimeout.
      destruct v; cbn; crush_handler; cbn; repeat split; assumption.
    - unfold onerror. cbn. repeat split; assumption. }
  cbn zeta in H.
  generalize dependent (handle v (snd te) (set_now (N.max (now w) (fst te)) w)).
  intros w1 (A1 & A2 & A3 & A4).
  unfold submitEffect. rewrite A1. cbn. repeat split; assumption.
Qed.

(** X6.  Silence submits nothing: as long as every recognition result is
    blank (empty or whitespace only), no timeout is ever armed, the
    exposed transcript stays empty and nothing is submitted, whatever
    the clicks, starts, ends and errors in between. *)
Theorem silence_submits_nothing (supported : bool) (tes : list (N * event)) :
  silent tes = true ->
  let w := run v tes (init supported) in
  submitted w = [] /\ timers w = [] /\ transcript w = [].
Proof.
  intro Hs.
  assert (H : forall w,
             transcript w = [] -> submitted w = [] -> timers w = [] ->
             blank (accumulatedTranscript w) = true ->
             submitted (run v tes w) = [] /\ timers (run v tes w) = []
             /\ transcript (run v tes w) = []).
  { induction tes as [|te tes IH]; intros w T Sb Tm B; cbn [run fold_left].
    - now repeat split.
    - unfold silent in Hs. cbn [forallb] in Hs.
      apply andb_true_iff in Hs. destruct Hs as [Hte Hrest].
      destruct (silent_step te w) as (A1 & A2 & A3 & A4); auto.
      { unfold silent. cbn [forallb]. now rewrite Hte. }
      now apply IH. }
  now apply H.
Qed.

(** X7.  Where the platform has no speech recognition the microphone
    button does nothing: no recognizer is started, no timeout armed and
    nothing submitted, however often it is clicked. *)
Theorem unsupported_clicks_do_nothing (ts : list N) :
  let w := run v (map (fun t => (t, ClickMic)) ts) (init false) in
  recActive w = false /\ isListening w = false /\ timers w = []
  /\ submitted w = [] /\ error w = None.
Proof.
  assert (H : forall w,
             isSupported w = false -> recActive w = false ->
             isListening w = false -> timers w = [] -> submitted w = [] ->
             transcript w = [] -> error w = None ->
             let w' := run v (map (fun t => (t, ClickMic)) ts) w in
             recActive w' = false /\ isListening w' = false /\ timers w' = []
             /\ submitted w' = [] /\ error w' = None).
  { induction ts as [|t ts IH]; intros w S R L Tm Sb T E;
      cbn [map run fold_left].
    - now repeat split.
    - apply IH; unfold step; cbn [fst snd];
        rewrite (advance_early v t w) by (rewrite Tm; intros tm []);
        destruct w as [l tr sup er st acc hs ra rs tms nt nw sb ex];
        cbn in S, R, L, Tm, Sb, T, E; subst; reflexivity. }
  now apply H.
Qed.

End VoiceTraces.

Section Sessions.
Import Voice.

Variable v : variant.

(** One event: a submission uses up the allowance of the session, and
    only a click that starts a session grants a new one. *)
Lemma step_allowance (te : N * event) (w : world) :
  let w1 := step v te w in
  length (submitted w1) + (if hasSubmitted w1 then 0 else 1)
  <= length (submitted w) + (if hasSubmitted w then 0 else 1)
     + starts v [te] w
  /\ exists l, submitted w1 = submitted w ++ l.
Proof.
  cbn zeta. unfold step, starts.
  destruct (advance_keeps_react v (fst te) w) as (A & _ & C & D & _).
  pose proof (handle_submitted v (snd te) (advance v (fst te) w)) as S.
  assert (Hh : (if hasSubmitted (handle v (snd te) (advance v (fst te) w))
                then 0 else 1)
               <= (if hasSubmitted w then 0 else 1)
                  + (match snd te with
                     | ClickMic => if isListening w then 0 else 1
                     | _ => 0
                     end)).
  { destruct (snd te) eqn:E;
      try (rewrite handle_hasSubmitted by discriminate; rewrite C; lia).
    cbn [handle]. rewrite A. destruct (isListening w); cbv iota.
    - unfold stopListening, recognition_stop.
      destruct (isSupported _ && isListening _); [|rewrite C; lia].
      destruct (recActive _); cbn; rewrite C; lia.
    - destruct (hasSubmitted w),
        (hasSubmitted (handleStartListening v (advance v (fst te) w))); lia. }
  generalize dependent (handle v (snd te) (advance v (fst te) w)).
  intros w1 S Hh. unfold submitEffect.
  destruct (truthy (transcript w1) && negb (isListening w1)
            && negb (hasSubmitted w1)) eqn:G; cbn.
  - apply andb_true_iff in G. destruct G as [_ G].
    apply negb_true_iff in G. rewrite G in Hh.
    rewrite S, D, length_app. cbn. split; [lia|]. eauto.
  - rewrite S, D. split; [lia|]. exists []. now rewrite app_nil_r.
Qed.

Lemma run_allowance (tes : list (N * event)) :
  forall w,
    length (submitted (run v tes w))
    + (if hasSubmitted (run v tes w) then 0 else 1)
    <= length (submitted w) + (if hasSubmitted w then 0 else 1)
       + starts v tes w
    /\ exists l, submitted (run v tes w) = submitted w ++ l.
Proof.
  induction tes as [|te tes IH]; intro w.
  - cbn. split; [lia|]. exists []. now rewrite app_nil_r.
  - change (run v (te :: tes) w) with (run v tes (step v te w)).
    destruct (step_allowance te w) as [H1 (l1 & E1)].
    destruct (IH (step v te w)) as [H2 (l2 & E2)].
    cbn zeta in H1. cbn [starts] in *.
    split; [lia|]. exists (l1 ++ l2). now rewrite E2, E1, app_assoc.
Qed.

(** X2.  A session submits at most once.  Count one allowance while the
    submitted flag is clear: over any sequence of events, from any state,
    the submissions made plus the allowance left are at most the
    submissions and the allowance at the beginning plus the number of
    clicks that start a session.  So once a session has submitted,
    nothing more is submitted, whatever happens, until the microphone
    button is clicked to start the next one; a click that stops capture
    grants nothing. *)
Theorem one_submission_per_session (tes : list (N * event)) (w : world) :
  let w' := run v tes w in
  length (submitted w') + (if hasSubmitted w' then 0 else 1)
  <= length (submitted w) + (if hasSubmitted w then 0 else 1)
     + starts v tes w
  /\ (starts v tes w = 0 -> hasSubmitted w = true ->
      submitted w' = submitted w).
Proof.
  intro w'. subst w'. destruct (run_allowance tes w) as [H (l & E)].
  split; [exact H|]. intros S0 HS. rewrite S0, HS in H.
  rewrite E, length_app in H. destruct l as [|x l]; [now rewrite E, app_nil_r|].
  cbn in H. destruct (hasSubmitted (run v tes w)); lia.
Qed.

End Sessions.

Lemma start_while_running_witness :
  Voice.error
    (Voice.handle GeneralApp Voice.ClickMic
       (Voice.handle GeneralApp Voice.ClickMic (Voice.init true)))
  = Some (lit "Failed to start voice recognition").
Proof.
  refine (proj1 (start_while_running GeneralApp
                   (Voice.handle GeneralApp Voice.ClickMic (Voice.init true))
                   _ _ _)); reflexivity.
Defined.

Lemma silence_submits_nothing_witness :
  Voice.submitted
    (Voice.run ColumbiaRex
       [(0, Voice.ClickMic); (100, Voice.OnStart); (900, Voice.said false " ");
        (1500, Voice.said true ""); (2000, Voice.ClickMic);
        (2100, Voice.OnEnd)]%N (Voice.init true))
  = [].
Proof.
  refine (proj1 (silence_submits_nothing ColumbiaRex true _ _)).
  reflexivity.
Defined.

Lemma one_submission_per_session_witness :
  Voice.submitted
    (Voice.run GeneralApp
       [(3000, Voice.OnStart); (3500, Voice.said true "again");
        (4000, Voice.ClickMic); (4100, Voice.OnEnd)]%N
       (Voice.run GeneralApp stopped_session (Voice.init true)))
  = [lit "hello"].
Proof.
  rewrite (proj2 (one_submission_per_session GeneralApp
                    [(3000, Voice.OnStart); (3500, Voice.said true "again");
                     (4000, Voice.ClickMic); (4100, Voice.OnEnd)]%N
                    (Voice.run GeneralApp stopped_session (Voice.init true)))
             eq_refl eq_refl).
  reflexivity.
Defined.

(* ================================================================== *)
(** ** The API hook over arbitrary event sequences *)
(* ================================================================== *)

Section ApiTraces.
Import Api.

Local Arguments N.add : simpl never.
Local Arguments N.leb : simpl never.
Local Arguments N.max : simpl never.
Local Arguments TIMEOUT : simpl never.
Local Arguments CLUB_ID : simpl never.

Variable v : variant.

Lemma messages_not_empty :
  msg_timeout <> [] /\ msg_network v <> [] /\ msg_failed v <> [].
Proof. destruct v; repeat split; discriminate. Qed.

(** What the abort timeouts that have come due leave behind. *)
Lemma aborts_fields (l : list fetch) :
  forall w,
    let w' := fold_left (fun w _ => finally v (catch v true w)) l w in
    sent w' = sent w /\ response w' = response w /\ pending w' = pending w
    /\ nextReq w' = nextReq w
    /\ ((l = [] /\ w' = w)
        \/ (l <> [] /\ loading w' = false
            /\ (error w' = Some msg_timeout \/ error w' = Some (msg_network v)))).
Proof.
  induction l as [|f l IH]; intro w; cbn [fold_left].
  - repeat split. now left.
  - destruct (IH (finally v (catch v true w))) as (A & B & C & D & H).
    cbn zeta in *. rewrite A, B, C, D.
    split; [unfold finally, catch; destruct v; reflexivity|].
    split; [unfold finally, catch; destruct v; reflexivity|].
    split; [unfold finally, catch; destruct v; reflexivity|].
    split; [unfold finally, catch; destruct v; reflexivity|].
    right. split; [discriminate|].
    destruct H as [[-> ->] | (_ & H1 & H2)].
    + cbn [fold_left]. unfold finally, catch.
      destruct v; cbn; split; auto.
    + split; assumption.
Qed.

Lemma advance_fields (t : N) (w : world) :
  let w' := advance v t w in
  sent w' = sent w /\ response w' = response w /\ nextReq w' = nextReq w
  /\ ((loading w' = loading w /\ error w' = error w)
      \/ (loading w' = false
          /\ (error w' = Some msg_timeout \/ error w' = Some (msg_network v)))).
Proof.
  unfold advance. cbn zeta.
  destruct (aborts_fields (filter (due t) (pending w))
              (set_pending (filter (fun f => negb (due t f)) (pending w)) w))
    as (A & B & C & D & H).
  cbn zeta in *. cbn [sent response nextReq loading error set_now].
  rewrite A, B, D. repeat split.
  destruct H as [[_ ->] | (_ & H1 & H2)]; [left; split; reflexivity|].
  right. split; assumption.
Qed.

(** What one handler can do to the hook. *)
Lemma handle_fields (e : event) (w : world) :
  let w' := handle v e w in
  (sent w' = sent w
   \/ exists q fm, e = Ask q fm /\ sent w' = sent w ++ [body_of q fm])
  /\ (response w' = response w
      \/ (exists a, response w' = Some a /\ success a = true)
      \/ (v = ColumbiaInline /\ response w' = None))
  /\ ((loading w' = loading w /\ error w' = error w)
      \/ (loading w' = true /\ error w' = None)
      \/ (loading w' = false
          /\ (error w' = error w \/ error w' = None
              \/ exists m, error w' = Some m /\ m <> []))).
Proof.
  destruct messages_not_empty as (M1 & M2 & M3).
  destruct w as [l rs er rip pd st nr nw].
  destruct e; cbn [handle];
    unfold askQuestion, startFetch, finally, catch, onData, find, remove, body_of.
  - destruct v; gate_cases; repeat split; eauto 8.
  - destruct v; gate_cases; repeat split; eauto 8.
  - destruct v; gate_cases; repeat split; eauto 8.
  - destruct v; gate_cases; repeat split; eauto 8;
      try (right; right; split; [reflexivity|]; right; right;
           eexists; split; [reflexivity|];
           first [assumption | now destruct s]).
  - destruct v; gate_cases; repeat split; eauto 8.
Qed.

Lemma step_fields (te : N * event) (w : world) :
  let w' := step v te w in
  (sent w' = sent w
   \/ exists q fm, snd te = Ask q fm /\ sent w' = sent w ++ [body_of q fm])
  /\ (response w' = response w
      \/ (exists a, response w' = Some a /\ success a = true)
      \/ (v = ColumbiaInline /\ response w' = None))
  /\ ((loading w' = loading w /\ error w' = error w)
      \/ (loading w' = true /\ error w' = None)
      \/ (loading w' = false
          /\ (error w' = error w \/ error w' = None
              \/ exists m, error w' = Some m /\ m <> []))).
Proof.
  destruct messages_not_empty as (M1 & M2 & M3).
  unfold step. cbn zeta.
  destruct (advance_fields (fst te) w) as (A & B & _ & C).
  destruct (handle_fields (snd te) (advance v (fst te) w)) as (A' & B' & C').
  cbn zeta in *.
  generalize dependent (handle v (snd te) (advance v (fst te) w)).
  generalize dependent (advance v (fst te) w).
  intros w1 A B C w2 A' B' C'.
  rewrite A in A'. rewrite B in B'.
  split; [exact A'|]. split; [exact B'|].
  destruct C as [[C1 C2] | (C1 & C2)];
    destruct C' as [[D1 D2] | [(D1 & D2) | (D1 & D2)]].
  - left. split; congruence.
  - right; left. now split.
  - right; right. split; [exact D1|]. rewrite C2 in D2. exact D2.
  - right; right. split; [congruence|]. right; right.
    rewrite D2. destruct C2 as [-> | ->]; eauto.
  - right; left. now split.
  - right; right. split; [exact D1|].
    destruct D2 as [D2 | [D2 | D2]]; [|now auto|now auto].
    right; right. rewrite D2. destruct C2 as [-> | ->]; eauto.
Qed.

(** X8.  The loading indicator and the error banner are never on
    together: in every reachable state of every source, while [loading]
    is set no error is stored. *)
Theorem no_error_while_loading (tes : list (N * event)) :
  loading (run v tes init) = true -> error (run v tes init) = None.
Proof.
  assert (H : forall w, (loading w = true -> error w = None) ->
                        loading (run v tes w) = true ->
                        error (run v tes w) = None).
  { induction tes as [|te tes IH]; intros w H; cbn [run fold_left];
      [exact H|].
    apply IH. intro L.
    destruct (step_fields te w) as (_ & _ & [[C1 C2] | [(C1 & C2) | (C1 & _)]]);
      cbn zeta in *.
    - rewrite C2. apply H. congruence.
    - exact C2.
    - congruence. }
  apply H. intros _. reflexivity.
Qed.

Lemma sent_bounded (tes : list (N * event)) :
  forall w n,
    length (sent w) <= n ->
    Forall (fun b => b_club_id b = lit "columbia_cc") (sent w) ->
    length (sent (run v tes w)) <= n + asks tes
    /\ Forall (fun b => b_club_id b = lit "columbia_cc") (sent (run v tes w)).
Proof.
  induction tes as [|te tes IH]; intros w n Hn HF.
  - unfold asks; cbn. split; [lia | exact HF].
  - change (run v (te :: tes) w) with (run v tes (step v te w)).
    destruct (step_fields te w) as ([A | (q & fm & E & A)] & _);
      cbn zeta in A.
    + destruct (IH (step v te w) n) as [I1 I2]; try (rewrite A; assumption).
      split; [|exact I2]. unfold asks in *. cbn [filter].
      destruct (snd te); cbn [length]; lia.
    + destruct (IH (step v te w) (S n)) as [I1 I2].
      * rewrite A, length_app. cbn. lia.
      * rewrite A. apply Forall_app. split; [exact HF|].
        constructor; [reflexivity | constructor].
      * split; [|exact I2]. unfold asks in *. cbn [filter].
        rewrite E. cbn [length]. lia.
Qed.

(** X10.  The stored answer always carries a true success flag: a
    response whose flag is false never becomes the displayed answer. *)
Theorem stored_answer_is_successful (tes : list (N * event)) (a : answer) :
  response (run v tes init) = Some a -> success a = true.
Proof.
  assert (H : forall w,
             (forall a, response w = Some a -> success a = true) ->
             forall a, response (run v tes w) = Some a -> success a = true).
  { induction tes as [|te tes IH]; intros w H; cbn [run fold_left];
      [exact H|].
    apply IH. intros b Hb.
    destruct (step_fields te w) as (_ & [B | [(c & B & Hc) | (_ & B)]] & _);
      cbn zeta in *.
    - apply H. congruence.
    - congruence.
    - congruence. }
  apply (H init). intros b Hb. discriminate.
Qed.

(** X11.  A stored error is never the empty string, so every failure
    shows a banner: the server's message is used only when it is not
    empty, and the built-in messages are not. *)
Theorem stored_error_is_not_empty (tes : list (N * event)) (m : str) :
  error (run v tes init) = Some m -> m <> [].
Proof.
  assert (H : forall w,
             (forall m, error w = Some m -> m <> []) ->
             forall m, error (run v tes w) = Some m -> m <> []).
  { induction tes as [|te tes IH]; intros w H; cbn [run fold_left];
      [exact H|].
    apply IH. intros b Hb.
    destruct (step_fields te w)
      as (_ & _ & [[_ C] | [(_ & C) | (_ & [C | [C | (k & C & Hk)]])]]);
      cbn zeta in *; try congruence; apply H; congruence. }
  apply (H init). intros b Hb. discriminate.
Qed.

(** X12.  In the gated sources an answer, once stored, is never taken
    away again: only another successful response replaces it. *)
Theorem gated_answer_persists (tes : list (N * event)) (w : world) :
  gated v = true -> response w <> None -> response (run v tes w) <> None.
Proof.
  intro G. revert w.
  induction tes as [|te tes IH]; intros w H; [exact H|].
  change (run v (te :: tes) w) with (run v tes (step v te w)).
  apply IH.
  destruct (step_fields te w) as (_ & [B | [(c & B & _) | (Hv & _)]] & _);
    cbn zeta in *.
  - congruence.
  - congruence.
  - rewrite Hv in G. discriminate.
Qed.

(** X13.  In the gated sources the loading indicator follows the request
    exactly: in every reachable state the two markers agree, they are set
    if and only if a fetch is under way, and at most one is. *)
Theorem spinner_tracks_request (tes : list (N * event)) :
  gated v = true ->
  let w := run v tes init in
  requestInProgress w = loading w
  /\ (loading w = true <-> pending w <> [])
  /\ length (pending w) <= 1.
Proof.
  intros G w.
  assert (H : gate_ok w).
  { subst w. assert (H0 : gate_ok init) by (split; reflexivity).
    revert H0. generalize init.
    induction tes as [|te tes IH]; intros w H; [exact H|].
    change (run v (te :: tes) w) with (run v tes (step v te w)).
    apply IH. unfold step. now apply gate_ok_handle, gate_ok_advance. }
  destruct H as [H1 H2]. split; [exact H1|].
  destruct (loading w); [destruct H2 as [f H2]|]; rewrite H2.
  - split; [split; [discriminate | reflexivity] | cbn; lia].
  - split; [split; [discriminate | congruence] | cbn; lia].
Qed.

Lemma advance_idle (t : N) (w : world) :
  pending w = [] -> advance v t w = set_now (N.max (now w) t) w.
Proof.
  intro P. unfold advance. rewrite P. cbn [filter fold_left].
  destruct w; cbn in P; subst; reflexivity.
Qed.

Lemma advance_one (t : N) (f : fetch) (w : world) :
  pending w = [f] ->
  advance v t w
  = if due t f
    then set_now (N.max (now w) t) (finally v (catch v true (set_pending [] w)))
    else set_now (N.max (now w) t) w.
Proof.
  intro P. unfold advance. rewrite P. cbn [filter].
  destruct (due t f); cbn [negb fold_left].
  - unfold finally, catch. destruct v; reflexivity.
  - destruct w; cbn in P; subst; reflexivity.
Qed.

(** X14.  Either side of the 10-second boundary in the gated sources: a
    response that arrives more than 10 seconds after the submission is
    ignored, the timeout having been reported; a successful response
    that arrives less than 10 seconds after it becomes the stored answer
    and leaves no error.  A response at the very instant of the deadline
    is left out: nothing in the source orders it against the abort. *)
Theorem timeout_boundary
  (q : str) (fm : bool) (t : N) (data : answer) (w : world) :
  gated v = true ->
  loading w = false -> requestInProgress w = false -> pending w = [] ->
  let r := nextReq w in
  let w' := run v [(t, FetchResolves r); (t, BodyParsed r data)]
              (askQuestion v q fm w) in
  ((now w + TIMEOUT < t)%N ->
   error w' = Some (lit "Request timed out") /\ response w' = response w
   /\ loading w' = false /\ pending w' = [])
  /\ ((t < now w + TIMEOUT)%N -> success data = true ->
      response w' = Some data /\ error w' = None
      /\ loading w' = false /\ pending w' = []).
Proof.
  intros G L R P r w'. subst r w'.
  destruct (gate_accepts v q fm w R L) as (_ & _ & Ep). rewrite P, G in Ep.
  cbn [app] in Ep.
  assert (Er : response (askQuestion v q fm w) = response w)
    by (destruct (accepted_request_clears v q fm w L R) as [_ E];
        now rewrite G in E).
  assert (En : now (askQuestion v q fm w) = now w)
    by (unfold askQuestion, startFetch; destruct v; cbn;
        rewrite ?R, ?L; reflexivity).
  cbn [run fold_left]. unfold step. cbn [fst snd].
  rewrite (advance_one t _ _ Ep). unfold due. cbn [abortAt].
  generalize dependent (askQuestion v q fm w). intros w1 Ep Er En.
  destruct (N.leb (now w + TIMEOUT) t) eqn:Ht.
  - apply N.leb_le in Ht.
    split; [intros _ | intro H; exfalso; lia].
    assert (E1 : handle v (FetchResolves (nextReq w))
                   (set_now (N.max (now w1) t)
                      (finally v (catch v true (set_pending [] w1))))
                 = set_now (N.max (now w1) t)
                     (finally v (catch v true (set_pending [] w1))))
      by (unfold finally, catch; destruct v; reflexivity).
    rewrite E1.
    rewrite advance_idle
      by (unfold finally, catch; destruct v; reflexivity).
    unfold finally, catch. destruct v; try discriminate; cbn;
      repeat split; exact Er.
  - apply N.leb_gt in Ht.
    split; [intro H; exfalso; lia | intros _ Hs].
    destruct w1 as [l1 rs1 er1 rip1 pd1 st1 nr1 nw1]. cbn in Ep, Er, En.
    subst pd1 rs1 nw1.
    cbn [handle find pending set_now List.find rid]. rewrite Nat.eqb_refl.
    cbn [headersReceived map pending rid]. rewrite Nat.eqb_refl.
    rewrite (advance_one t (resolved
               {| rid := nextReq w; headersReceived := false;
                  abortAt := Some (now w + TIMEOUT)%N |}))
      by reflexivity.
    cbn [due resolved abortAt handle find pending set_now set_pending
           List.find rid].
    rewrite Nat.eqb_refl. cbn [headersReceived].
    unfold onData. rewrite Hs. unfold finally, remove.
    destruct v; try discriminate; cbn; rewrite Nat.eqb_refl; cbn;
      repeat split.
Qed.

End ApiTraces.

Lemma gated_answer_persists_witness :
  Api.response
    (Api.run GeneralApp
       [(5000%N, Api.Ask (lit "can I move a loose impediment") true);
        (5300%N, Api.FetchRejects 1)] (answered GeneralApp))
  <> None.
Proof.
  apply gated_answer_persists; [reflexivity|].
  vm_compute. discriminate.
Defined.

Lemma spinner_tracks_request_witness :
  length (Api.pending (Api.run ColumbiaRex two_questions Api.init)) <= 1.
Proof.
  refine (proj2 (proj2 (spinner_tracks_request ColumbiaRex two_questions _))).
  reflexivity.
Defined.

Lemma timeout_boundary_witness :
  Api.error
    (Api.run GeneralApp
       [(12000%N, Api.FetchResolves 0);
        (12000%N, Api.BodyParsed 0 lost_ball_answer)]
       (Api.askQuestion GeneralApp (lit "what is the rule for a lost ball")
          true Api.init))
  = Some (lit "Request timed out").
Proof.
  refine (proj1 (proj1 (timeout_boundary GeneralApp _ true 12000%N
                          lost_ball_answer Api.init _ _ _ _) _)).
  - reflexivity.
  - reflexivity.
  - reflexivity.
  - reflexivity.
  - vm_compute. reflexivity.
Defined.

Lemma inline_sends_every_ask (tes : list (N * Api.event)) :
  forall w n,
    length (Api.sent w) = n ->
    length (Api.sent (Api.run ColumbiaInline tes w)) = n + asks tes.
Proof.
  induction tes as [|[t e] tes IH]; intros w n Hn.
  - unfold asks; cbn. lia.
  - change (Api.run ColumbiaInline ((t, e) :: tes) w)
      with (Api.run ColumbiaInline tes (Api.step ColumbiaInline (t, e) w)).
    destruct (advance_fields ColumbiaInline t w) as (A & _).
    cbn zeta in A.
    destruct (step_fields ColumbiaInline (t, e) w) as (HS & _).
    cbn zeta in HS. cbn [snd] in HS.
    unfold asks in *. cbn [filter snd].
    destruct e; cbn [length];
      try (rewrite (IH _ n); [lia|];
           destruct HS as [HS | (q' & fm' & HS & _)];
           [congruence | discriminate]).
    rewrite (IH _ (S n)); [lia|]. unfold Api.step. cbn [fst snd Api.handle].
    destruct (ungated_never_rejects q fastMode
                (Api.advance ColumbiaInline t w)) as [E _].
    rewrite E, length_app, A. cbn. lia.
Qed.

(** X9.  No request is sent twice and none is sent unasked: in any
    sequence of submissions, responses, failures and timeouts the number
    of bodies handed to [fetch] is at most the number of calls of
    [askQuestion] (exactly that number in ColumbiaInline, which never
    rejects), and every body carries the club identifier [columbia_cc],
    in GeneralApp as in the Columbia sources. *)
Theorem requests_sent_once (v : variant) (tes : list (N * Api.event)) :
  let w := Api.run v tes Api.init in
  length (Api.sent w) <= asks tes
  /\ (v = ColumbiaInline -> length (Api.sent w) = asks tes)
  /\ Forall (fun b => Api.b_club_id b = lit "columbia_cc") (Api.sent w).
Proof.
  intro w. subst w.
  destruct (sent_bounded v tes Api.init 0) as [I1 I2];
    [cbn; lia | constructor |].
  split; [exact I1|]. split; [|exact I2].
  intros ->. now apply (inline_sends_every_ask tes Api.init 0).
Qed.

(* ================================================================== *)
(** ** The renderers on plain text, line breaks and bullet lines *)
(* ================================================================== *)

Section RenderingFacts.
Import ColumbiaRulesResponse.

Lemma split_nl_Forall (P : char -> Prop) (s : str) :
  Forall P s -> Forall (Forall P) (split_nl s).
Proof.
  induction 1 as [|c s Hc _ IH]; cbn.
  - repeat constructor.
  - destruct (N.eqb c nl); [constructor; [constructor | exact IH]|].
    destruct (split_nl s) as [|l ls]; [repeat constructor; exact Hc|].
    inversion IH; subst. constructor; [constructor|]; assumption.
Qed.

Lemma trimStart_Forall (P : char -> Prop) (s : str) :
  Forall P s -> Forall P (trimStart s).
Proof.
  induction 1 as [|c s Hc Hs IH]; cbn; [constructor|].
  destruct (is_ws c); [exact IH | now constructor].
Qed.

Lemma trim_Forall (P : char -> Prop) (s : str) :
  Forall P s -> Forall P (trim s).
Proof.
  intro H. unfold trim, trimEnd.
  now apply Forall_rev, trimStart_Forall, Forall_rev, trimStart_Forall.
Qed.

Lemma no_bullet_no_item (l : str) :
  Forall (fun c => c <> bullet) l -> isBulletLine l = false.
Proof.
  intro H. destruct (isBulletLine l) eqn:E; [|reflexivity].
  unfold isBulletLine in E. apply startsWith_inv in E. destruct E as [r E].
  apply trim_Forall in H. rewrite E in H. inversion H; subst. congruence.
Qed.

Lemma startsWith_other_head (c : char) (p s : str) :
  Forall (fun x => x <> c) s -> startsWith s (c :: p) = false.
Proof.
  intros [|d s' Hd _]; [reflexivity|].
  rewrite startsWith_cons. apply not_eq_sym, N.eqb_neq in Hd. now rewrite Hd.
Qed.

Lemma includes_other_head (c : char) (p s : str) :
  Forall (fun x => x <> c) s -> includes s (c :: p) = false.
Proof.
  induction 1 as [|d s Hd Hs IH].
  - reflexivity.
  - cbn [includes]. rewrite IH, startsWith_other_head; [reflexivity|].
    now constructor.
Qed.

Lemma seam_head : seam = lt :: tl seam.
Proof. reflexivity. Qed.

Lemma div_flex_head : div_flex = lt :: tl div_flex.
Proof. reflexivity. Qed.

(** Lines without a bullet and without an angle bracket pass through
    [formatLine] and the final replace unchanged. *)
Lemma plain_lines (ls : list str) :
  Forall (Forall (fun c => c <> bullet /\ c <> lt)) ls ->
  seam_free ls = true
  /\ interleave (fun l l' => if seam_joint l l' then [] else BR) formatLine ls
     = join BR ls.
Proof.
  induction 1 as [|l ls Hl Hls [IH1 IH2]]; [now split|].
  assert (Hb : Forall (fun c => c <> bullet) l)
    by (eapply Forall_impl; [|exact Hl]; now intros c [A _]).
  assert (Ha : Forall (fun c => c <> lt) l)
    by (eapply Forall_impl; [|exact Hl]; now intros c [_ A]).
  assert (El : formatLine l = l)
    by (unfold formatLine; now rewrite (no_bullet_no_item l Hb)).
  split.
  - cbn [seam_free forallb]. fold (seam_free ls). rewrite IH1, El.
    rewrite seam_head, (includes_other_head lt _ l Ha). reflexivity.
  - destruct ls as [|l' rest];
      [cbn [interleave join]; rewrite El; apply app_nil_r|].
    change (interleave (fun l l' => if seam_joint l l' then [] else BR)
              formatLine (l :: l' :: rest))
      with (formatLine l
            ++ (if seam_joint l l' then [] else BR)
            ++ interleave (fun l l' => if seam_joint l l' then [] else BR)
                 formatLine (l' :: rest)).
    change (join BR (l :: l' :: rest)) with (l ++ BR ++ join BR (l' :: rest)).
    rewrite IH2, El. f_equal. f_equal.
    unfold seam_joint.
    assert (Ha' : Forall (fun c => c <> lt) l').
    { inversion Hls as [|? ? H1 _]; subst.
      eapply Forall_impl; [|exact H1]. now intros c [_ A]. }
    assert (Hb' : Forall (fun c => c <> bullet) l').
    { inversion Hls as [|? ? H1 _]; subst.
      eapply Forall_impl; [|exact H1]. now intros c [A _]. }
    unfold formatLine at 2. rewrite (no_bullet_no_item l' Hb').
    rewrite div_flex_head, (startsWith_other_head lt _ l' Ha').
    now rewrite andb_false_r.
Qed.

(** X15.  On plain text the three sources show the same thing: an answer
    that holds no bullet and no opening angle bracket is rendered by
    [RulesResponse] and by [ColumbiaRulesResponse] as its lines separated
    by break tags, with nothing else changed. *)
Theorem plain_text_rendered_alike (answer : str) :
  Forall (fun c => c <> bullet /\ c <> lt) answer ->
  RulesResponse.formatAnswer answer = join BR (split_nl answer)
  /\ ColumbiaRulesResponse.formatAnswer answer = join BR (split_nl answer).
Proof.
  intro H. pose proof (split_nl_Forall _ _ H) as Hls. split.
  - rewrite general_by_lines. f_equal.
    induction Hls as [|l ls Hl _ IH]; [reflexivity|]. cbn [map]. f_equal.
    + unfold bull. apply replaceAllChar_id.
      eapply Forall_impl; [|exact Hl]. now intros c [A _].
    + exact IH.
  - destruct (plain_lines _ Hls) as [F E].
    unfold ColumbiaRulesResponse.formatAnswer, joinLines.
    now rewrite (seam_replace_lines _ F).
Qed.

Lemma In_replaceAllChar (x c : char) (r s : str) :
  In x (replaceAllChar c r s) -> In x r \/ (In x s /\ x <> c).
Proof.
  unfold replaceAllChar. intro H. apply in_flat_map in H.
  destruct H as (y & Hy & Hx).
  destruct (N.eqb y c) eqn:E; [now left|].
  destruct Hx as [<- | []]. right. split; [exact Hy|].
  now apply N.eqb_neq.
Qed.

Lemma split_nl_no_nl (s : str) :
  Forall (Forall (fun c => c <> nl)) (split_nl s).
Proof.
  induction s as [|c s IH]; cbn; [repeat constructor|].
  destruct (N.eqb c nl) eqn:E; [constructor; [constructor | exact IH]|].
  apply N.eqb_neq in E.
  destruct (split_nl s) as [|l ls]; [repeat constructor; exact E|].
  inversion IH; subst. constructor; [constructor|]; assumption.
Qed.

Lemma In_replaceFirst (x : char) (p r s : str) :
  In x (replaceFirst p r s) -> In x r \/ In x s.
Proof.
  induction s as [|c s IH]; cbn [replaceFirst].
  - destruct (strip p []) as [rest|] eqn:E; [|now right].
    apply strip_sound in E. destruct p; [|discriminate]. cbn in E; subst.
    intro H. apply in_app_or in H. tauto.
  - destruct (strip p (c :: s)) as [rest|] eqn:E.
    + apply strip_sound in E. intro H. apply in_app_or in H.
      destruct H as [H|H]; [now left|]. right. rewrite E.
      apply in_or_app. now right.
    + intros [<- | H]; [right; now left|].
      destruct (IH H); [now left | right; now right].
Qed.

Lemma In_join (x : char) (sep : str) (ls : list str) :
  In x (join sep ls) -> In x sep \/ exists l, In l ls /\ In x l.
Proof.
  induction ls as [|l ls IH]; [intros []|].
  cbn [join]. destruct ls as [|l' rest].
  - intro H. right. exists l. split; [now left | exact H].
  - intro H. apply in_app_or in H. destruct H as [H|H].
    + right. exists l. split; [now left | exact H].
    + apply in_app_or in H. destruct H as [H|H]; [now left|].
      destruct (IH H) as [H'|(l0 & H1 & H2)]; [now left|].
      right. exists l0. split; [now right | exact H2].
Qed.

Lemma In_replaceAllFrom (x : char) (p r s : str) :
  forall k, In x (replaceAllFrom p r k s) -> In x r \/ In x s.
Proof.
  induction s as [|c s IH]; intros k; cbn [replaceAllFrom]; [intros []|].
  destruct k as [|k].
  - destruct (startsWith (c :: s) p).
    + intro H. apply in_app_or in H. destruct H as [H|H]; [now left|].
      destruct (IH _ H); [now left | right; now right].
    + intros [<- | H]; [right; now left|].
      destruct (IH _ H); [now left | right; now right].
  - intro H. destruct (IH _ H); [now left | right; now right].
Qed.

Lemma markup_without_line_break :
  existsb (N.eqb nl)
    (BR ++ lit "&bull;" ++ item_open ++ item_close ++ seam_joined) = false.
Proof. reflexivity. Qed.

Lemma not_in_markup (s : str) :
  existsb (N.eqb nl) s = false -> ~ In nl s.
Proof.
  intros H Hin. assert (E : existsb (N.eqb nl) s = true)
    by (apply existsb_exists; exists nl; split; [exact Hin | apply N.eqb_refl]).
  congruence.
Qed.

(** X16.  No line break survives rendering: the markup that
    [RulesResponse] hands to the page holds neither a newline nor a
    bullet character, and the markup of [ColumbiaRulesResponse] holds no
    newline, whatever the answer text. *)
Theorem no_line_break_survives (answer : str) :
  ~ In nl (RulesResponse.formatAnswer answer)
  /\ ~ In bullet (RulesResponse.formatAnswer answer)
  /\ ~ In nl (ColumbiaRulesResponse.formatAnswer answer).
Proof.
  pose proof markup_without_line_break as M.
  repeat rewrite existsb_app in M.
  apply orb_false_iff in M; destruct M as [Mbr M].
  apply orb_false_iff in M; destruct M as [Mbull M].
  apply orb_false_iff in M; destruct M as [Mopen M].
  apply orb_false_iff in M; destruct M as [Mclose Mjoined].
  split; [|split].
  - unfold RulesResponse.formatAnswer. intro H.
    apply In_replaceAllChar in H. destruct H as [H | [H _]].
    + now apply (not_in_markup (lit "&bull;")).
    + apply In_replaceAllChar in H. destruct H as [H | [_ H]];
        [now apply (not_in_markup BR) | congruence].
  - unfold RulesResponse.formatAnswer. intro H.
    apply In_replaceAllChar in H. destruct H as [H | [_ H]]; [|congruence].
    revert H. vm_compute. intuition discriminate.
  - unfold ColumbiaRulesResponse.formatAnswer, joinLines, replaceAll. intro H.
    apply In_replaceAllFrom in H.
    destruct H as [H|H]; [now apply (not_in_markup seam_joined)|].
    apply In_join in H.
    destruct H as [H | (l & Hl & H)]; [now apply (not_in_markup BR)|].
    apply in_map_iff in Hl. destruct Hl as (l0 & <- & Hl0).
    pose proof (split_nl_no_nl answer) as N.
    rewrite Forall_forall in N. specialize (N l0 Hl0).
    rewrite Forall_forall in N.
    unfold formatLine in H. destruct (isBulletLine l0); [|now apply (N nl)].
    apply in_app_or in H.
    destruct H as [H|H]; [now apply (not_in_markup item_open)|].
    apply in_app_or in H.
    destruct H as [H|H]; [|now apply (not_in_markup item_close)].
    apply In_replaceFirst in H. destruct H as [[] | H]. now apply (N nl).
Qed.

Lemma blank_Forall (s : str) :
  blank s = true -> Forall (fun c => is_ws c = true) s.
Proof. unfold blank. intro H. now apply Forall_forall, forallb_forall. Qed.

Lemma trimStart_app_blank (a s : str) :
  blank a = true -> trimStart (a ++ s) = trimStart s.
Proof.
  intro H. apply blank_Forall in H.
  induction H as [|c a Hc _ IH]; [reflexivity|].
  cbn [app trimStart]. now rewrite Hc.
Qed.

Lemma trimStart_app_solid (a s : str) :
  blank a = false -> trimStart (a ++ s) = trimStart a ++ s.
Proof.
  unfold blank. induction a as [|c a IH]; cbn [forallb]; [discriminate|].
  intro H. cbn [app trimStart]. destruct (is_ws c); [now apply IH | reflexivity].
Qed.

Lemma blank_rev (s : str) : blank (rev s) = blank s.
Proof.
  induction s as [|c s IH]; [reflexivity|].
  cbn [rev]. rewrite blank_app, IH.
  change (c :: s) with ([c] ++ s). rewrite blank_app. apply andb_comm.
Qed.

Lemma trimEnd_app_solid (a s : str) :
  blank s = false -> trimEnd (a ++ s) = a ++ trimEnd s.
Proof.
  intro H. unfold trimEnd. rewrite rev_app_distr, trimStart_app_solid.
  - now rewrite rev_app_distr, rev_involutive.
  - now rewrite blank_rev.
Qed.

Lemma trimEnd_app_blank (a s : str) :
  blank s = true -> trimEnd (a ++ s) = trimEnd a.
Proof.
  intro H. unfold trimEnd. rewrite rev_app_distr, trimStart_app_blank;
    [reflexivity | now rewrite blank_rev].
Qed.

(** X17.  Which lines become bullet items.  A line made of optional
    leading whitespace, the bullet marker and some text that is not
    blank is rendered as an item whose text is the line without the
    marker, the leading whitespace included.  When nothing but
    whitespace follows the marker the line is no item, because [trim]
    removes the space of the marker: it is left as it is. *)
Theorem bullet_item_rendering (ws rest : str) :
  blank ws = true ->
  let line := ws ++ marker ++ rest in
  (blank rest = false ->
   formatLine line = item_open ++ ws ++ rest ++ item_close)
  /\ (blank rest = true -> formatLine line = line).
Proof.
  intros W line. subst line.
  assert (T : trimStart (ws ++ marker ++ rest) = marker ++ rest).
  { rewrite (trimStart_app_blank _ _ W). cbn [marker app trimStart].
    now change (is_ws bullet) with false. }
  unfold formatLine, isBulletLine, trim. rewrite T. split; intro R.
  - rewrite (trimEnd_app_solid _ _ R), startsWith_app_self.
    rewrite replaceFirst_pass.
    + replace (replaceFirst marker [] (marker ++ rest)) with rest
        by (cbn [marker app replaceFirst strip]; now rewrite !N.eqb_refl).
      now rewrite <- app_assoc.
    + apply blank_Forall in W. eapply Forall_impl; [|exact W].
      intros c Hc ->. discriminate.
  - change (marker ++ rest) with ([bullet] ++ (space :: rest)).
    rewrite trimEnd_app_blank; [reflexivity|].
    change (space :: rest) with ([space] ++ rest). rewrite blank_app, R.
    reflexivity.
Qed.

Lemma trimStart_split (s : str) :
  exists ws, blank ws = true /\ s = ws ++ trimStart s.
Proof.
  induction s as [|c s (ws & B & E)]; [now exists []|].
  cbn [trimStart]. destruct (is_ws c) eqn:Ec.
  - exists (c :: ws). split.
    + change (c :: ws) with ([c] ++ ws). rewrite blank_app, B.
      unfold blank. cbn [forallb]. now rewrite Ec.
    + cbn [app]. now f_equal.
  - now exists [].
Qed.

Lemma trimEnd_split (s : str) :
  exists ws, blank ws = true /\ s = trimEnd s ++ ws.
Proof.
  destruct (trimStart_split (rev s)) as (ws & B & E).
  exists (rev ws). split; [now rewrite blank_rev|].
  unfold trimEnd. rewrite <- rev_app_distr, <- E. now rewrite rev_involutive.
Qed.

(** X18.  Only such lines become bullet items: when [formatLine] takes a
    line for a bullet item, the line is made of leading whitespace, the
    bullet marker (a bullet and one space) and text that is not blank.
    A bullet followed directly by text, or by another kind of space, is
    not enough. *)
Theorem bullet_item_shape (line : str) :
  isBulletLine line = true ->
  exists ws rest,
    blank ws = true /\ blank rest = false /\ line = ws ++ marker ++ rest.
Proof.
  intro H. unfold isBulletLine in H. apply startsWith_inv in H.
  destruct H as [r E].
  destruct (trimStart_split line) as (ws & W & El).
  destruct (trimEnd_split (trimStart line)) as (ws' & W' & Ex).
  fold (trim line) in Ex. rewrite E in Ex.
  exists ws, (r ++ ws'). split; [exact W|]. split.
  - destruct (blank (r ++ ws')) eqn:B; [|reflexivity]. exfalso.
    rewrite blank_app in B. apply andb_true_iff in B. destruct B as [Br _].
    destruct (clean_trim line) as [_ C]. rewrite E in C.
    change (marker ++ r) with ([bullet] ++ (space :: r)) in C.
    rewrite rev_app_distr in C.
    rewrite trimStart_app_blank in C.
    + change (trimStart (rev [bullet])) with [bullet] in C.
      apply (f_equal (@length char)) in C.
      rewrite length_app, length_rev in C. cbn [length rev app] in C. lia.
    + rewrite blank_rev. change (space :: r) with ([space] ++ r).
      now rewrite blank_app, Br.
  - rewrite El at 1. rewrite Ex. now rewrite <- app_assoc.
Qed.

End RenderingFacts.

Lemma plain_text_rendered_alike_witness :
  ColumbiaRulesResponse.formatAnswer (lit "Stroke and distance.")
  = join BR (split_nl (lit "Stroke and distance.")).
Proof.
  refine (proj2 (plain_text_rendered_alike (lit "Stroke and distance.") _)).
  repeat constructor; discriminate.
Defined.

Lemma bullet_item_rendering_witness :
  ColumbiaRulesResponse.formatLine
    (lit "  " ++ ColumbiaRulesResponse.marker ++ lit " ")
  = lit "  " ++ ColumbiaRulesResponse.marker ++ lit " ".
Proof.
  refine (proj2 (bullet_item_rendering (lit "  ") (lit " ") _) _);
    reflexivity.
Defined.

Lemma bullet_item_shape_witness :
  exists ws rest,
    blank ws = true /\ blank rest = false
    /\ lit " " ++ ColumbiaRulesResponse.marker ++ lit "item a"
       = ws ++ ColumbiaRulesResponse.marker ++ rest.
Proof.
  apply (bullet_item_shape
           (lit " " ++ ColumbiaRulesResponse.marker ++ lit "item a")).
  reflexivity.
Defined.

(* ================================================================== *)
(** ** The page: typed questions and quick questions *)
(* ================================================================== *)

Section PageTraces.
Import Page.

Local Arguments N.add : simpl never.
Local Arguments N.leb : simpl never.
Local Arguments N.max : simpl never.
Local Arguments Api.TIMEOUT : simpl never.
Local Arguments Api.CLUB_ID : simpl never.

Variable v : variant.

(** The API state of the page moves as the API hook does, and the page
    calls [askQuestion] with the fast mode only. *)
Lemma page_api_step (te : N * event) (w : world) :
  api (step v te w) = Api.advance v (fst te) (api w)
  \/ exists e,
       api (step v te w) = Api.step v (fst te, e) (api w)
       /\ forall q fm, e = Api.Ask q fm -> fm = true.
Proof.
  unfold step, handle, advance.
  destruct (enabled v (snd te) _) eqn:En; [|now left].
  destruct (snd te) as [tb|s| |i|q|r|e]; cbn [react].
  - now left.
  - now left.
  - unfold handleTextSubmit. cbn [textInput set_api].
    destruct (truthy (trim (textInput w))); [|now left].
    right. exists (Api.Ask (trim (textInput w)) true).
    split; [reflexivity|]. intros q fm E. now injection E as _ <-.
  - cbn [quickQuestions set_api].
    destruct (nth_error (quickQuestions w) i) as [qq|]; [|now left].
    right. exists (Api.Ask (text qq) true).
    split; [reflexivity|]. intros q fm E. now injection E as _ <-.
  - right. exists (Api.Ask q true).
    split; [reflexivity|]. intros q' fm E. now injection E as _ <-.
  - destruct r as [[|] qs|]; now left.
  - right. exists e. split; [reflexivity|].
    intros q fm ->. cbn in En. discriminate.
Qed.

Lemma page_gate_ok (tes : list (N * event)) :
  Api.gated v = true ->
  forall w, gate_ok (api w) -> gate_ok (api (run v tes w)).
Proof.
  intro G. induction tes as [|te tes IH]; intros w H; [exact H|].
  change (run v (te :: tes) w) with (run v tes (step v te w)).
  apply IH.
  destruct (page_api_step te w) as [-> | (e & -> & _)].
  - now apply gate_ok_advance.
  - unfold Api.step. now apply gate_ok_handle, gate_ok_advance.
Qed.

(** With no request under way, [askQuestion] hands the question on. *)
Lemma ask_when_idle (q : str) (a : Api.world) :
  (Api.gated v = true -> gate_ok a) -> Api.loading a = false ->
  Api.sent (Api.askQuestion v q true a) = Api.sent a ++ [body_of q true]
  /\ Api.loading (Api.askQuestion v q true a) = true.
Proof.
  intros H L. destruct (Api.gated v) eqn:G.
  - destruct (H eq_refl) as [E _]. rewrite L in E.
    destruct (gate_accepts v q true a E L) as (A & B & _). now split.
  - destruct v; try discriminate. split; reflexivity.
Qed.

(** X19.  An enabled button is never turned down by the gate.  In every
    state the page can reach, a click on the submit button while it is
    enabled sends one request with the trimmed draft, which is not
    empty, clears the draft and disables the button; a click on a quick
    question while the list is shown sends one request with its text
    and takes the list off the page. *)
Theorem enabled_buttons_always_send (tes : list (N * event)) (t : N) :
  let w := advance v t (run v tes init) in
  (activeTab w = TextTab -> submitDisabled w = false ->
   let w' := handle v SubmitForm w in
   Api.sent (api w')
   = Api.sent (api w) ++ [body_of (trim (textInput w)) true]
   /\ trim (textInput w) <> []
   /\ textInput w' = [] /\ submitDisabled w' = true)
  /\ (forall i q,
        quickQuestionsShown w = true ->
        nth_error (quickQuestions w) i = Some q ->
        let w' := handle v (SelectQuestion i) w in
        Api.sent (api w') = Api.sent (api w) ++ [body_of (text q) true]
        /\ quickQuestionsShown w' = false).
Proof.
  intro w.
  assert (K : Api.gated v = true -> gate_ok (api w)).
  { intro G. subst w. unfold advance. cbn [api set_api].
    apply gate_ok_advance; [exact G|].
    apply page_gate_ok; [exact G|]. split; reflexivity. }
  clearbody w. split.
  - intros T D w'. subst w'.
    unfold submitDisabled in D. apply orb_false_iff in D.
    destruct D as [L Tr]. apply negb_false_iff in Tr.
    destruct (ask_when_idle (trim (textInput w)) (api w) K L) as [A B].
    unfold handle, enabled, submitDisabled. rewrite T, L, Tr.
    cbn [negb orb react]. unfold handleTextSubmit. rewrite Tr.
    unfold handleQuestion, submitDisabled. cbn [api textInput setTextInput set_api].
    rewrite A, B. repeat split.
    intro E. rewrite E in Tr. discriminate.
  - intros i q Q E w'. subst w'.
    assert (L : Api.loading (api w) = false).
    { unfold quickQuestionsShown in Q.
      apply andb_true_iff in Q. destruct Q as [Q _].
      apply andb_true_iff in Q. destruct Q as [Q _].
      now apply negb_true_iff in Q. }
    assert (I : Nat.ltb i (length (quickQuestions w)) = true).
    { apply Nat.ltb_lt, nth_error_Some. congruence. }
    destruct (ask_when_idle (text q) (api w) K L) as [A B].
    unfold handle, enabled. rewrite Q, L, I. cbn [negb andb react].
    rewrite E. unfold handleQuestion, quickQuestionsShown.
    cbn [api textInput setTextInput set_api quickQuestions].
    rewrite A, B. split; reflexivity.
Qed.

(** The bodies handed to [fetch] are never taken back. *)
Lemma page_sent_grows (te : N * event) (w : world) :
  exists l, Api.sent (api (step v te w)) = Api.sent (api w) ++ l
            /\ Forall (fun b => Api.b_fast_mode b = true) l.
Proof.
  destruct (page_api_step te w) as [-> | (e & -> & F)].
  - destruct (advance_fields v (fst te) (api w)) as (A & _).
    cbn zeta in A. rewrite A. exists []. now rewrite app_nil_r.
  - destruct (step_fields v (fst te, e) (api w)) as (A & _).
    cbn zeta in A. cbn [snd] in A.
    destruct A as [-> | (q & fm & E & ->)].
    + exists []. now rewrite app_nil_r.
    + exists [body_of q fm]. split; [reflexivity|].
      constructor; [|constructor]. cbn. now apply (F q fm).
Qed.

(** X20.  The page asks in fast mode only: [askQuestion] takes the mode
    as a parameter, but every request the page sends, whether typed,
    spoken or picked from the quick questions, carries a true
    [fast_mode]. *)
Theorem page_asks_in_fast_mode (tes : list (N * event)) :
  Forall (fun b => Api.b_fast_mode b = true) (Api.sent (api (run v tes init))).
Proof.
  assert (H : forall w,
             Forall (fun b => Api.b_fast_mode b = true) (Api.sent (api w)) ->
             Forall (fun b => Api.b_fast_mode b = true)
               (Api.sent (api (run v tes w)))).
  { induction tes as [|te tes IH]; intros w H; [exact H|].
    change (run v (te :: tes) w) with (run v tes (step v te w)).
    apply IH. destruct (page_sent_grows te w) as (l & -> & F).
    apply Forall_app. now split. }
  apply H. constructor.
Qed.

Lemma untouched_step (te : N * event) (w : world) :
  untouched (api w) ->
  untouched (api (step v te w)) \/ Api.sent (api (step v te w)) <> [].
Proof.
  intros (L & R & E & P & D).
  destruct (page_api_step te w) as [-> | (e & -> & _)].
  - left. rewrite (advance_idle v _ _ D). now repeat split.
  - unfold Api.step. cbn [fst snd]. rewrite (advance_idle v _ _ D).
    destruct e as [q fm|r|r|r data|r]; cbn [Api.handle].
    + right.
      destruct (gate_accepts v q fm (Api.set_now (N.max (Api.now (api w)) (fst te)) (api w)))
        as (A & _); [exact P | exact L |].
      rewrite A. intro Hn. apply app_eq_nil in Hn. destruct Hn; discriminate.
    + left. unfold Api.find. cbn [Api.pending Api.set_now]. rewrite D.
      cbn. now repeat split.
    + left. unfold Api.find. cbn [Api.pending Api.set_now]. rewrite D.
      cbn. now repeat split.
    + left. unfold Api.find. cbn [Api.pending Api.set_now]. rewrite D.
      cbn. now repeat split.
    + left. unfold Api.find. cbn [Api.pending Api.set_now]. rewrite D.
      cbn. now repeat split.
Qed.

Lemma page_sent_stays (tes : list (N * event)) :
  forall w, Api.sent (api w) <> [] -> Api.sent (api (run v tes w)) <> [].
Proof.
  induction tes as [|te tes IH]; intros w H; [exact H|].
  change (run v (te :: tes) w) with (run v tes (step v te w)).
  apply IH. destruct (page_sent_grows te w) as (l & -> & _).
  intro E. apply app_eq_nil in E. now destruct E.
Qed.

(** X21.  Until the first question is sent the page shows no spinner, no
    answer and no error, whatever becomes of the request for the quick
    questions: its failure is logged and nothing else. *)
Theorem quiet_until_first_question (tes : list (N * event)) :
  let w := run v tes init in
  Api.sent (api w) = [] ->
  Api.loading (api w) = false /\ Api.response (api w) = None
  /\ errorBanner w = None.
Proof.
  intro w. subst w.
  assert (H : forall w, untouched (api w) ->
                        untouched (api (run v tes w))
                        \/ Api.sent (api (run v tes w)) <> []).
  { induction tes as [|te tes IH]; intros w H; [now left|].
    change (run v (te :: tes) w) with (run v tes (step v te w)).
    destruct (untouched_step te w H) as [U | S'].
    - now apply IH.
    - right. now apply page_sent_stays. }
  intro S0.
  destruct (H init) as [(L & R & E & _) | N0].
  - now repeat split.
  - unfold errorBanner. rewrite E. now repeat split.
  - contradiction.
Qed.

(** X22.  The gate turns down spoken questions only.  In the gated
    sources a transcript that the voice effect hands over while a
    request is under way starts no request and leaves answer, error and
    spinner as they are: the question is lost without a message, and the
    typed draft is cleared all the same. *)
Theorem spoken_question_dropped (tes : list (N * event)) (t : N) (q : str) :
  let w := advance v t (run v tes init) in
  Api.gated v = true -> Api.loading (api w) = true ->
  enabled v (Transcript q) w = true ->
  let w' := handle v (Transcript q) w in
  api w' = api w /\ textInput w' = [].
Proof.
  intros w G L En w'. subst w'.
  assert (K : gate_ok (api w)).
  { subst w. unfold advance. cbn [api set_api].
    apply gate_ok_advance; [exact G|].
    apply page_gate_ok; [exact G|]. split; reflexivity. }
  clearbody w. unfold handle. rewrite En. cbn [react].
  unfold handleQuestion. cbn [api textInput setTextInput set_api].
  rewrite (gate_rejects v q true (api w) G); [now split|].
  rewrite L. apply orb_true_r.
Qed.

End PageTraces.

Lemma enabled_buttons_always_send_witness :
  Api.sent
    (Page.api
       (Page.handle GeneralApp Page.SubmitForm
          (Page.advance GeneralApp 2000 (Page.run GeneralApp typing Page.init))))
  = [body_of (lit "lost ball?") true].
Proof.
  refine (proj1 (proj1 (enabled_buttons_always_send GeneralApp typing 2000%N)
                   _ _)); reflexivity.
Defined.

Lemma quiet_until_first_question_witness :
  Page.errorBanner (Page.run ColumbiaInline quick_load_fails Page.init) = None.
Proof.
  refine (proj2 (proj2 (quiet_until_first_question ColumbiaInline
                          quick_load_fails _))).
  reflexivity.
Defined.

Lemma no_error_while_loading_witness :
  Api.error
    (Api.run ColumbiaInline
       (rejected_question
        ++ [(900%N, Api.Ask (lit "can I move a loose impediment") true)])
       Api.init)
  = None.
Proof.
  apply no_error_while_loading. reflexivity.
Defined.

Lemma stored_answer_is_successful_witness :
  Api.success lost_ball_answer = true.
Proof.
  apply (stored_answer_is_successful ColumbiaRex answered_question).
  reflexivity.
Defined.

Lemma stored_error_is_not_empty_witness :
  lit "Network error. Please check your connection." <> [].
Proof.
  apply (stored_error_is_not_empty GeneralApp rejected_question).
  reflexivity.
Defined.

Lemma requests_sent_once_witness :
  length (Api.sent (Api.run ColumbiaInline two_questions Api.init)) = 2.
Proof.
  apply (proj1 (proj2 (requests_sent_once ColumbiaInline two_questions))).
  reflexivity.
Defined.

Lemma spoken_question_dropped_witness :
  Api.sent
    (Page.api
       (Page.handle GeneralApp (Page.Transcript (lit "may I move my ball"))
          (Page.advance GeneralApp 3000
             (Page.run GeneralApp picked_question Page.init))))
  = [body_of (lit "What is the penalty for a lost ball?") true].
Proof.
  rewrite (proj1 (spoken_question_dropped GeneralApp picked_question 3000%N
                    (lit "may I move my ball") eq_refl eq_refl eq_refl)).
  reflexivity.
Defined.
